(** * Image-Compressor: the per-image compression pipeline and the
      state transitions of the [App] component.

    Two variants of the component are verified side by side:
    - [Part000]: the variant with dimension tiers, the small-file flag, the
      fallback to the original file and the size statistics;
    - [AppJs]: [src/App.js], the plain variant.

    Conventions of the embedding.
    - A [File] is its name, its MIME type and its bytes; [file.size] is the
      length of the bytes.
    - JavaScript numbers that hold byte counts, pixel counts and the strength
      are integers ([Z]); the derived quantities (megabytes, ratios) are
      carried as exact rationals ([Q]), so the rounding of IEEE doubles inside
      a division or a product is not part of the model.  [toFixed] follows
      the steps of [Number.prototype.toFixed] on that exact value.
    - [URL.createObjectURL] / [URL.revokeObjectURL] act on an explicit store
      of object URLs, threaded through the code by a small state monad.
    - The image decoder ([new Image()] and its [onload]) and the re-encoder
      ([imageCompression], package browser-image-compression) are not code of
      the repository: they are the Section variables [loadImage] and
      [imageCompression].
    - A callback of [selectedFiles.map] is run as one piece, at the moment it
      ends; the order in which the callbacks of a batch end is a list of
      indices, the schedule.  The values of the object URLs depend on that
      order, nothing else does.
    - The setters called by one handler take effect together.
    - [console] records the calls of [console.error]; the [console.log] of
      the fallback is not recorded. *)

From Stdlib Require Import ZArith QArith Qround Qminmax Qabs Lia Lqa Ascii String.
From stdpp Require Import base list gmap strings pretty.

Local Open Scope Z_scope.

(** ** Files and object URLs *)

Record File := mkFile {
  file_name : string;
  file_type : string;
  file_data : list Byte.byte
}.

(** [file.size] *)
Definition file_size (f : File) : Z := Z.of_nat (length (file_data f)).

(** An object URL is an opaque token ([blob:...]); the store remembers which
    blob each live URL refers to and which token is handed out next. *)
Definition Url := N.

Record UrlStore := mkUrlStore {
  nextUrl : N;
  blobs : gmap N File
}.

Definition emptyStore : UrlStore := mkUrlStore 0%N ∅.

(** The state monad over the URL store. *)
Definition M (A : Type) : Type := UrlStore -> A * UrlStore.

Definition ret {A} (a : A) : M A := fun st => (a, st).

Definition bind {A B} (c : M A) (k : A -> M B) : M B :=
  fun st => let (a, st') := c st in k a st'.

Notation "x <~ c ;; k" := (bind c (fun x => k))
  (at level 100, c at next level, right associativity).

Definition createObjectURL (f : File) : M Url :=
  fun st => (nextUrl st,
             mkUrlStore (N.succ (nextUrl st)) (<[nextUrl st := f]> (blobs st))).

Definition revokeObjectURL (u : Url) : M unit :=
  fun st => (tt, mkUrlStore (nextUrl st) (delete u (blobs st))).

(** [files.map(file => URL.createObjectURL(file))] *)
Fixpoint mapCreateObjectURL (files : list File) : M (list Url) :=
  match files with
  | [] => ret []
  | f :: rest =>
      u <~ createObjectURL f ;;
      us <~ mapCreateObjectURL rest ;;
      ret (u :: us)
  end.

(** ** Numbers: [toFixed] *)

Definition pow10 (d : nat) : Z := 10 ^ Z.of_nat d.

(** The integer [n] for which [n / 10^d - x] is closest to zero, the larger
    one on a tie. *)
Definition roundHalfUp (x : Q) (d : nat) : Z :=
  Qfloor (x * inject_Z (pow10 d) + (1 # 2)).

Fixpoint zeros (k : nat) : string :=
  match k with
  | O => ""
  | S k' => String "0"%char (zeros k')
  end.

(** The digits of [n], with the decimal point [d] places from the right. *)
Definition fixedDigits (n : Z) (d : nat) : string :=
  let m := pretty (Z.to_N n) in
  match d with
  | O => m
  | _ =>
      let k := String.length m in
      let m' := if (k <=? d)%nat then zeros (d + 1 - k) +:+ m else m in
      let k' := String.length m' in
      substring 0 (k' - d) m' +:+ "." +:+ substring (k' - d) d m'
  end.

(** [x.toFixed(d)] for a finite [x]: the sign is split off, then the value
    is rounded and its digits are laid out. *)
Definition toFixed (x : Q) (d : nat) : string :=
  if Qlt_le_dec x 0
  then "-" +:+ fixedDigits (roundHalfUp (- x) d) d
  else fixedDigits (roundHalfUp x d) d.

(** ** What the encoder is given and what a callback returns *)

(** The options object passed to [imageCompression]; a key that a variant
    does not set is [None]. *)
Record Options := mkOptions {
  maxSizeMB : Q;
  maxWidthOrHeight : Z;
  useWebWorker : bool;
  initialQuality : option Q;
  alwaysKeepResolution : option bool;
  preserveExif : option bool;
  skipCompression : option bool;
  quality : option Q
}.

Record Stats := mkStats {
  originalSize : string;
  compressedSize : string;
  compressionRatio : string
}.

Record Result := mkResult {
  url : Url;
  file : File;
  originalName : string;
  stats : option Stats
}.

Definition Error := string.

(** How the promise of one [async (file) => ...] callback ends; [Pending]
    is a promise that never settles. *)
Inductive Outcome :=
| Fulfilled (r : Result)
| Rejected (e : Error)
| Pending.

(** A byte count in megabytes: [bytes / (1024 * 1024)]. *)
Definition megabytes (bytes : Z) : Q := inject_Z bytes / 1048576.

(** [const originalSizeMB = file.size / (1024 * 1024)] *)
Definition originalSizeMB (f : File) : Q := megabytes (file_size f).

(** ** The variant with tiers, fallback and statistics *)

Module Part000.

Definition floor_size : Q := 3 # 10.

(** [Math.max(0.3, originalSizeMB * (1 - compressionValue / 100))] *)
Definition targetSizeMB (f : File) (compressionValue : Z) : Q :=
  Qmax floor_size (originalSizeMB f * (1 - inject_Z compressionValue / 100)).

(** [Math.max(img.width, img.height)] *)
Definition maxDimension (img : Z * Z) : Z := Z.max (fst img) (snd img).

Definition maxWidthOrHeightOf (img : Z * Z) : Z :=
  if maxDimension img >? 4000 then 4000
  else if maxDimension img >? 2000 then 2000
  else maxDimension img.

Definition options (f : File) (compressionValue : Z) (img : Z * Z) : Options :=
  {| maxSizeMB := targetSizeMB f compressionValue;
     maxWidthOrHeight := maxWidthOrHeightOf img;
     useWebWorker := true;
     initialQuality := Some (9 # 10);
     alwaysKeepResolution := Some true;
     preserveExif := Some true;
     skipCompression := Some (file_size f <? 100 * 1024);
     quality := None |}.

(** The file kept after the encoder returned [compressed]:
    [if (compressedFile.size > file.size) compressedFile = file]. *)
Definition keepSmaller (f compressed : File) : File :=
  if file_size compressed >? file_size f then f else compressed.

(** [(file.size - compressedFile.size) / file.size * 100] as a function of
    the two byte counts; the quotient [0 / 0] of an empty file is [NaN],
    here [None]. *)
Definition ratioPercent (size csize : Z) : option Q :=
  if size =? 0 then None
  else Some (inject_Z (size - csize) / inject_Z size * 100)%Q.

Definition ratioText (size csize : Z) : string :=
  match ratioPercent size csize with
  | None => "NaN"
  | Some q => toFixed q 1
  end.

(** The [stats] object, from [file.size] and [compressedFile.size]. *)
Definition statsOf (size csize : Z) : Stats :=
  {| originalSize := toFixed (megabytes size) 2 +:+ "MB";
     compressedSize := toFixed (megabytes csize) 2 +:+ "MB";
     compressionRatio := ratioText size csize +:+ "%" |}.

Section Pipeline.

(** [loadImage f] is the decoded width and height once [img.onload] fires;
    [None] when it never fires (the callback sets no [onerror]). *)
Variable loadImage : File -> option (Z * Z).
Variable imageCompression : File -> Options -> Error + File.

(** The callback [async (file) => { ... }] of [selectedFiles.map]. *)
Definition compressFile (f : File) (compressionValue : Z) : M Outcome :=
  imgUrl <~ createObjectURL f ;;
  match loadImage f with
  | None => ret Pending
  | Some img =>
      _ <~ revokeObjectURL imgUrl ;;
      match imageCompression f (options f compressionValue img) with
      | inl e => ret (Rejected e)
      | inr compressed =>
          let compressedFile := keepSmaller f compressed in
          u <~ createObjectURL compressedFile ;;
          ret (Fulfilled {| url := u;
                            file := compressedFile;
                            originalName := file_name f;
                            stats := Some (statsOf (file_size f)
                                             (file_size compressedFile)) |})
      end
  end.

End Pipeline.

End Part000.

(** ** [src/App.js] *)

Module AppJs.

Definition floor_size : Q := 1.

Definition options (f : File) (compressionValue : Z) : Options :=
  {| maxSizeMB := Qmax floor_size
                    (originalSizeMB f * (1 - inject_Z compressionValue / 100));
     maxWidthOrHeight := 1920;
     useWebWorker := true;
     initialQuality := None;
     alwaysKeepResolution := None;
     preserveExif := None;
     skipCompression := None;
     quality := Some (inject_Z (100 - compressionValue) / 100)%Q |}.

Section Pipeline.

Variable imageCompression : File -> Options -> Error + File.

Definition compressFile (f : File) (compressionValue : Z) : M Outcome :=
  match imageCompression f (options f compressionValue) with
  | inl e => ret (Rejected e)
  | inr compressedFile =>
      u <~ createObjectURL compressedFile ;;
      ret (Fulfilled {| url := u;
                        file := compressedFile;
                        originalName := file_name f;
                        stats := None |})
  end.

End Pipeline.

End AppJs.

(** ** [Promise.all]

    The aggregate promise keeps one slot per input promise and a count of
    the promises still awaited.  A fulfilment of promise [i] fills slot [i];
    when the count reaches zero the aggregate resolves with the slots, in
    input order.  The first rejection rejects the aggregate.  A promise that
    is settled stays as it is. *)

Inductive PromiseState :=
| StillPending
| ResolvedWith (rs : list Result)
| RejectedWith (e : Error).

Record PromiseAll := mkPromiseAll {
  values : list (option Result);
  remainingElementsCount : nat;
  promiseState : PromiseState
}.

Definition newPromiseAll (n : nat) : PromiseAll :=
  {| values := replicate n None;
     remainingElementsCount := n;
     promiseState := match n with O => ResolvedWith [] | _ => StillPending end |}.

(** Resolve the aggregate with the slots [vs].  When every promise has
    fulfilled exactly once no slot is empty ([resolveElement_progress]
    below), so the last branch is not taken. *)
Definition resolveWith (vs : list (option Result)) : PromiseState :=
  match mapM id vs with
  | Some rs => ResolvedWith rs
  | None => StillPending
  end.

Definition resolveElement (i : nat) (r : Result) (pa : PromiseAll) : PromiseAll :=
  let vs := <[i := Some r]> (values pa) in
  let remaining := pred (remainingElementsCount pa) in
  {| values := vs;
     remainingElementsCount := remaining;
     promiseState :=
       match promiseState pa with
       | StillPending =>
           match remaining with
           | O => resolveWith vs
           | _ => StillPending
           end
       | settled => settled
       end |}.

Definition rejectElement (e : Error) (pa : PromiseAll) : PromiseAll :=
  {| values := values pa;
     remainingElementsCount := remainingElementsCount pa;
     promiseState :=
       match promiseState pa with
       | StillPending => RejectedWith e
       | settled => settled
       end |}.

Definition notify (i : nat) (o : Outcome) (pa : PromiseAll) : PromiseAll :=
  match o with
  | Fulfilled r => resolveElement i r pa
  | Rejected e => rejectElement e pa
  | Pending => pa
  end.

Definition unresolved (pa : PromiseAll) : Prop :=
  forall rs, promiseState pa <> ResolvedWith rs.

(** Slot [p] is empty and the aggregate promise is pending. *)
Definition waitingFor (p : nat) (pa : PromiseAll) : Prop :=
  values pa !! p = Some None /\ promiseState pa = StillPending.

(** ** The component *)

Record ChipOption := mkChipOption { label : string; value : Z }.

(** [handleCompress] closes over the [selectedFiles] and the
    [compressionValue] of the render in which it was called. *)
Record Batch := mkBatch { batchFiles : list File; batchValue : Z }.

(** The six [useState] cells, the object URLs of the page, the console and
    the batches whose [Promise.all] has not settled yet. *)
Record World := mkWorld {
  selectedFiles : list File;
  previewUrls : list Url;
  compressedUrls : list Result;
  compressionValue : Z;
  isCompressing : bool;
  selectedChip : option Z;
  objectUrls : UrlStore;
  console : list (string * Error);
  inflight : list Batch
}.

Definition setSelectedFiles (v : list File) (w : World) : World :=
  mkWorld v (previewUrls w) (compressedUrls w) (compressionValue w)
          (isCompressing w) (selectedChip w) (objectUrls w) (console w) (inflight w).

Definition setPreviewUrls (v : list Url) (w : World) : World :=
  mkWorld (selectedFiles w) v (compressedUrls w) (compressionValue w)
          (isCompressing w) (selectedChip w) (objectUrls w) (console w) (inflight w).

Definition setCompressedUrls (v : list Result) (w : World) : World :=
  mkWorld (selectedFiles w) (previewUrls w) v (compressionValue w)
          (isCompressing w) (selectedChip w) (objectUrls w) (console w) (inflight w).

Definition setCompressionValue (v : Z) (w : World) : World :=
  mkWorld (selectedFiles w) (previewUrls w) (compressedUrls w) v
          (isCompressing w) (selectedChip w) (objectUrls w) (console w) (inflight w).

Definition setIsCompressing (v : bool) (w : World) : World :=
  mkWorld (selectedFiles w) (previewUrls w) (compressedUrls w) (compressionValue w)
          v (selectedChip w) (objectUrls w) (console w) (inflight w).

Definition setSelectedChip (v : option Z) (w : World) : World :=
  mkWorld (selectedFiles w) (previewUrls w) (compressedUrls w) (compressionValue w)
          (isCompressing w) v (objectUrls w) (console w) (inflight w).

Definition setObjectUrls (v : UrlStore) (w : World) : World :=
  mkWorld (selectedFiles w) (previewUrls w) (compressedUrls w) (compressionValue w)
          (isCompressing w) (selectedChip w) v (console w) (inflight w).

(** [console.error(msg, e)] *)
Definition consoleError (msg : string) (e : Error) (w : World) : World :=
  mkWorld (selectedFiles w) (previewUrls w) (compressedUrls w) (compressionValue w)
          (isCompressing w) (selectedChip w) (objectUrls w)
          (console w ++ [(msg, e)]) (inflight w).

Definition setInflight (v : list Batch) (w : World) : World :=
  mkWorld (selectedFiles w) (previewUrls w) (compressedUrls w) (compressionValue w)
          (isCompressing w) (selectedChip w) (objectUrls w) (console w) v.

(** The state of the first render; [v0] is the initial strength (10 in the
    variant with tiers, 50 in [src/App.js]). *)
Definition initialWorld (v0 : Z) : World :=
  mkWorld [] [] [] v0 false None emptyStore [] [].

Definition handleFileSelect (files : list File) (w : World) : World :=
  match files with
  | [] => w
  | _ =>
      let (urls, st) := mapCreateObjectURL files (objectUrls w) in
      setCompressedUrls []
        (setPreviewUrls urls
           (setSelectedFiles files (setObjectUrls st w)))
  end.

(** [file.type.startsWith('image/')] *)
Definition isImage (f : File) : bool := String.prefix "image/" (file_type f).

Definition handleDrop (dropped : list File) (w : World) : World :=
  let files := List.filter isImage dropped in
  match files with
  | [] => w
  | _ => handleFileSelect files w
  end.

Definition handleChipClick (v : Z) (w : World) : World :=
  setCompressionValue v (setSelectedChip (Some v) w).

Definition handleSliderChange (newValue : Z) (w : World) : World :=
  setSelectedChip None (setCompressionValue newValue w).

(** [selectedChip === option.value], which decides the colour and the
    variant of a chip. *)
Definition chipActive (w : World) (o : ChipOption) : bool :=
  bool_decide (selectedChip w = Some (value o)).

Definition activeChips (opts : list ChipOption) (w : World) : list ChipOption :=
  List.filter (chipActive w) opts.

(** What is rendered under file [index]: [compressedUrls[index] && ...]. *)
Definition shownResult (w : World) (index : nat) : option Result :=
  compressedUrls w !! index.

Definition errorMessage : string := "압축 중 오류가 발생했습니다:".

(** What can happen to the page. *)
Inductive Event :=
| EvFileSelect (files : list File)
| EvDrop (dropped : list File)
| EvChipClick (v : Z)
| EvSliderChange (v : Z)
| EvCompressClick
| EvSettle (k : nat) (sched : list nat).


Definition isNil {A} (l : list A) : bool :=
  match l with
  | [] => true
  | _ => false
  end.

Definition noBatch (w : World) : bool := isNil (inflight w).

(** The event does not replace the selection under a batch in flight. *)
Definition selectionKept (w : World) (ev : Event) : bool :=
  match ev with
  | EvFileSelect files => noBatch w || isNil files
  | EvDrop dropped => noBatch w || isNil (List.filter isImage dropped)
  | _ => true
  end.

(** Every batch in flight was started on the current selection. *)
Definition batchesOfSelection (w : World) : Prop :=
  Forall (fun b => batchFiles b = selectedFiles w) (inflight w).

Section Component.

(** The callback of [selectedFiles.map] of the variant at hand. *)
Variable compressFile : File -> Z -> M Outcome.

(** The callbacks run to their end in the order [sched]; each one reports
    to the aggregate promise. *)
Fixpoint settleAll (b : Batch) (sched : list nat) (pa : PromiseAll)
  : M PromiseAll :=
  match sched with
  | [] => ret pa
  | i :: rest =>
      match batchFiles b !! i with
      | None => settleAll b rest pa
      | Some f =>
          o <~ compressFile f (batchValue b) ;;
          settleAll b rest (notify i o pa)
      end
  end.

(** [handleCompress] up to [await Promise.all(compressPromises)]. *)
Definition handleCompress (w : World) : World :=
  match selectedFiles w with
  | [] => w
  | _ =>
      setInflight (inflight w ++ [mkBatch (selectedFiles w) (compressionValue w)])
        (setIsCompressing true w)
  end.

(** The rest of [handleCompress] for the in-flight batch number [k], once
    its callbacks have ended in the order [sched]: the [try] body after the
    [await], the [catch] and the [finally].  While the aggregate promise is
    not settled nothing runs. *)
Definition handleCompress_resume (k : nat) (sched : list nat) (w : World) : World :=
  match inflight w !! k with
  | None => w
  | Some b =>
      let (pa, st) :=
        settleAll b sched (newPromiseAll (length (batchFiles b))) (objectUrls w) in
      match promiseState pa with
      | StillPending => w
      | ResolvedWith compressedResults =>
          setIsCompressing false
            (setCompressedUrls compressedResults
               (setInflight (delete k (inflight w)) (setObjectUrls st w)))
      | RejectedWith e =>
          setIsCompressing false
            (consoleError errorMessage e
               (setInflight (delete k (inflight w)) (setObjectUrls st w)))
      end
  end.

(** The compress button is [disabled={isCompressing}]. *)
Definition step (w : World) (ev : Event) : World :=
  match ev with
  | EvFileSelect files => handleFileSelect files w
  | EvDrop dropped => handleDrop dropped w
  | EvChipClick v => handleChipClick v w
  | EvSliderChange v => handleSliderChange v w
  | EvCompressClick => if isCompressing w then w else handleCompress w
  | EvSettle k sched => handleCompress_resume k sched w
  end.

Definition run (w : World) (evs : list Event) : World := fold_left step evs w.

(** No event of the trace replaces the selection under a batch in flight. *)
Fixpoint quiet (w : World) (evs : list Event) : bool :=
  match evs with
  | [] => true
  | ev :: rest => selectionKept w ev && quiet (step w ev) rest
  end.

(** [r] is a result the callback returns for [f] at strength [v]. *)
Definition producedBy (f : File) (v : Z) (r : Result) : Prop :=
  exists st st', compressFile f v st = (Fulfilled r, st').

(** One result per file, the i-th one produced from the i-th file. *)
Definition alignedWith (files : list File) (v : Z) (rs : list Result) : Prop :=
  length rs = length files
  /\ forall i r, rs !! i = Some r ->
       exists f, files !! i = Some f /\ producedBy f v r.

(** Every filled slot holds a result of the file with the same index. *)
Definition slotsAligned (b : Batch) (pa : PromiseAll) : Prop :=
  length (values pa) = length (batchFiles b)
  /\ forall i r, values pa !! i = Some (Some r) ->
       exists f, batchFiles b !! i = Some f /\ producedBy f (batchValue b) r.

Definition resolvedAligned (b : Batch) (pa : PromiseAll) : Prop :=
  forall rs, promiseState pa = ResolvedWith rs ->
    alignedWith (batchFiles b) (batchValue b) rs.

(** The result list is empty or as long as the selection, and every result
    on display was produced from the selected file with the same index. *)
Definition displayAligned (w : World) : Prop :=
  (compressedUrls w = [] \/ length (compressedUrls w) = length (selectedFiles w))
  /\ forall i r, shownResult w i = Some r ->
       exists f v, selectedFiles w !! i = Some f /\ producedBy f v r.

End Component.

(** The callbacks numbered [done] have fulfilled and no other has ended. *)
Definition fulfilledSoFar (b : Batch) (done : list nat) (pa : PromiseAll) : Prop :=
  length (values pa) = length (batchFiles b)
  /\ (forall i, i ∈ done -> exists r, values pa !! i = Some (Some r))
  /\ (remainingElementsCount pa + length done = length (batchFiles b))%nat
  /\ ((length done < length (batchFiles b))%nat -> promiseState pa = StillPending)
  /\ (length done = length (batchFiles b) ->
      exists rs, promiseState pa = ResolvedWith rs).

(** ** The download name *)

Definition notSlashDot (c : ascii) : bool :=
  negb (Ascii.eqb c "/") && negb (Ascii.eqb c ".").

Fixpoint allChars (p : ascii -> bool) (s : string) : bool :=
  match s with
  | EmptyString => true
  | String c rest => p c && allChars p rest
  end.

Definition nonEmpty (s : string) : bool :=
  match s with
  | EmptyString => false
  | String _ _ => true
  end.

(** [name.replace(/\.[^/.]+$/, '')]: the first position (from the left) at
    which a dot, then one or more characters other than [/] and [.], then
    the end of the string can be read, is where the string is cut. *)
Fixpoint stripExtension (s : string) : string :=
  match s with
  | EmptyString => EmptyString
  | String c rest =>
      if Ascii.eqb c "." && nonEmpty rest && allChars notSlashDot rest
      then EmptyString
      else String c (stripExtension rest)
  end.

(** [name.split('.')] *)
Fixpoint splitDot (s : string) : list string :=
  match s with
  | EmptyString => [EmptyString]
  | String c rest =>
      if Ascii.eqb c "." then EmptyString :: splitDot rest
      else match splitDot rest with
           | seg :: segs => String c seg :: segs
           | [] => [String c EmptyString]
           end
  end.

(** [array.pop()], the last element. *)
Definition pop (segs : list string) : string := List.last segs EmptyString.

Definition suffix_jelly : string := "_jelly_image_compress".

(** The [download] attribute of the link under a file. *)
Definition downloadName (name : string) : string :=
  stripExtension name +:+ suffix_jelly +:+ "." +:+ pop (splitDot name).

(** ** The chips of the two variants *)

Definition Part000_compressionOptions : list ChipOption :=
  [ mkChipOption "최고화질 (90%)" 10;
    mkChipOption "고화질 (80%)" 20;
    mkChipOption "표준화질 (70%)" 30;
    mkChipOption "저용량 (60%)" 40 ].

Definition AppJs_compressionOptions : list ChipOption :=
  [ mkChipOption "10%" 90;
    mkChipOption "25%" 75;
    mkChipOption "50%" 50;
    mkChipOption "75%" 25 ].

(** ** The words of the specification *)

(** The target size: [max(floor_size, originalSizeMB * (1 - strength/100))]. *)
Definition spec_targetSize (floor originalMB : Q) (strength : Z) : Q :=
  Qmax floor (originalMB * (1 - inject_Z strength / 100)).


(** The reported values as numbers: tenths of a percent and hundredths of a
    megabyte. *)
Definition ratioTenths (size csize : Z) : Z :=
  roundHalfUp (inject_Z (size - csize) / inject_Z size * 100) 1.


(** ** Decoders, encoders and files for the examples *)

(** A decoder for which every file loads, with the given dimensions. *)
Definition decodesTo (img : Z * Z) : File -> option (Z * Z) := fun _ => Some img.

(** A decoder for which [onload] fires only when the bytes start like a PNG
    or a JPEG file. *)
Definition decodesByMagic : File -> option (Z * Z) :=
  fun f =>
    match file_data f with
    | first :: _ =>
        if Byte.eqb first Byte.x89 || Byte.eqb first Byte.xff
        then Some (640, 480)
        else None
    | [] => None
    end.

(** An encoder that returns its input when asked to skip and otherwise
    rewrites the bytes with [g]. *)
Definition recode (g : list Byte.byte -> list Byte.byte)
  : File -> Options -> Error + File :=
  fun f o =>
    match skipCompression o with
    | Some true => inr f
    | _ => inr (mkFile (file_name f) (file_type f) (g (file_data f)))
    end.

(** An encoder that rejects every file whose MIME type is not an image type. *)
Definition strictEncoder : File -> Options -> Error + File :=
  fun f o => if isImage f then recode (take 1) f o else inl "not an image".

(** A file of exactly 100 KB. *)
Definition file100KB : File :=
  mkFile "big.jpg" "image/jpeg" (replicate (N.to_nat 102400) Byte.x01).


Definition pngA : File := mkFile "a.png" "image/png" [Byte.x89; Byte.x50; Byte.x4e].
Definition pngB : File := mkFile "b.png" "image/png" [Byte.x89; Byte.x47].
Definition jpgC : File := mkFile "c.jpg" "image/jpeg" [Byte.xff; Byte.xd8; Byte.xff].
Definition textD : File := mkFile "notes.txt" "text/plain" [Byte.x68; Byte.x69].

(** A file that passes for a JPEG image and cannot be decoded. *)
Definition brokenJpg : File :=
  mkFile "broken.jpg" "image/jpeg" [Byte.x00; Byte.x00; Byte.x00].


(** ** Further predicates on the page *)

(** Every live URL was handed out before [nextUrl]. *)
Definition storeOk (st : UrlStore) : Prop :=
  forall u, is_Some (blobs st !! u) -> (u < nextUrl st)%N.

(** What a callback may do to the object URLs: hand out new ones, leave the
    ones that were live alone, and return a result whose URL refers to the
    result's file. *)
Definition keepsUrls (compressFile : File -> Z -> M Outcome) : Prop :=
  forall f v st,
    storeOk st ->
    storeOk (compressFile f v st).2
    /\ (nextUrl st <= nextUrl (compressFile f v st).2)%N
    /\ (forall u, (u < nextUrl st)%N ->
          blobs (compressFile f v st).2 !! u = blobs st !! u)
    /\ (forall r, (compressFile f v st).1 = Fulfilled r ->
          blobs (compressFile f v st).2 !! url r = Some (file r)).

(** The event is a click on a chip or a move of the slider. *)
Definition isStrengthEvent (ev : Event) : bool :=
  match ev with
  | EvChipClick _ | EvSliderChange _ => true
  | _ => false
  end.

(** The strength and the active chip after one more event, as far as the
    chips and the slider go. *)
Definition strengthStep (s : Z * option Z) (ev : Event) : Z * option Z :=
  match ev with
  | EvChipClick v => (v, Some v)
  | EvSliderChange v => (v, None)
  | _ => s
  end.

(** At most one batch is in flight, the flag is set exactly then, and no
    batch is empty. *)
Definition lockOk (w : World) : Prop :=
  (length (inflight w) <= 1)%nat
  /\ (isCompressing w = true <-> inflight w <> [])
  /\ Forall (fun b => batchFiles b <> []) (inflight w).

(** The previews on display: one per selected file, pairwise distinct, each
    a live URL of the file with the same index; and every result in the
    list has a live URL of its own file. *)
Definition urlsLive (w : World) : Prop :=
  storeOk (objectUrls w)
  /\ length (previewUrls w) = length (selectedFiles w)
  /\ NoDup (previewUrls w)
  /\ (forall i f, selectedFiles w !! i = Some f ->
        exists u, previewUrls w !! i = Some u
                  /\ blobs (objectUrls w) !! u = Some f)
  /\ (forall i r, compressedUrls w !! i = Some r ->
        blobs (objectUrls w) !! url r = Some (file r)).

(** One card of the grid: the file name, the preview, the result if there is
    one and the name offered for download. *)
Record Card := mkCard {
  cardName : string;
  cardPreview : option Url;
  cardResult : option Result;
  cardDownload : string
}.

(** [previewUrls.length > 0 && ... selectedFiles.map((file, index) => ...)] *)
Definition renderCards (w : World) : list Card :=
  if isNil (previewUrls w) then []
  else imap (fun index f =>
               mkCard (file_name f) (previewUrls w !! index)
                      (compressedUrls w !! index)
                      (downloadName (file_name f)))
            (selectedFiles w).

(** Every card on the page shows a live preview of its own file, and a
    result under it, if there is one, links to a live URL of the result's
    file. *)
Definition cardsLive (w : World) : Prop :=
  length (renderCards w) = length (selectedFiles w)
  /\ forall i card, renderCards w !! i = Some card ->
       (exists f u, selectedFiles w !! i = Some f
                    /\ cardName card = file_name f
                    /\ cardPreview card = Some u
                    /\ blobs (objectUrls w) !! u = Some f)
       /\ (forall r, cardResult card = Some r ->
             blobs (objectUrls w) !! url r = Some (file r)).

(** The callback of [f] fulfils whatever the object URLs are, or rejects
    whatever they are. *)
Definition decided (compressFile : File -> Z -> M Outcome) (v : Z) (f : File)
  : Prop :=
  (forall st0, exists r st1, compressFile f v st0 = (Fulfilled r, st1))
  \/ (forall st0, exists e st1, compressFile f v st0 = (Rejected e, st1)).

(** ** Examples of the number and string functions *)

Example toFixed_two : toFixed (153600 # 1048576) 2 = "0.15".
Proof. reflexivity. Qed.

Example toFixed_one : toFixed (100 # 3) 1 = "33.3".
Proof. reflexivity. Qed.

Example toFixed_tie : toFixed (5 # 100) 1 = "0.1".
Proof. reflexivity. Qed.

Example toFixed_neg : toFixed (- (4 # 100)) 1 = "-0.0".
Proof. reflexivity. Qed.

Example downloadName_jpg :
  downloadName "cat.photo.jpg" = "cat.photo_jelly_image_compress.jpg".
Proof. reflexivity. Qed.

Example splitDot_example : splitDot "a.b..c" = ["a"; "b"; ""; "c"].
Proof. reflexivity. Qed.

(** ** Parameter derivation *)

(** C2.  For every image and every strength in [1, 99], the maximum size
    handed to the encoder is [max(floor_size, originalSizeMB * (1 -
    strength/100))], where the floor is the constant 0.3 in the variant with
    tiers and 1 in [src/App.js]. *)
Theorem target_size_is_floored_fraction (f : File) (strength : Z) (img : Z * Z) :
  1 <= strength <= 99 ->
  Qeq (maxSizeMB (Part000.options f strength img))
      (spec_targetSize (3 # 10) (inject_Z (file_size f) / 1048576) strength)
  /\ Qeq (maxSizeMB (AppJs.options f strength))
         (spec_targetSize 1 (inject_Z (file_size f) / 1048576) strength).
Proof.
  intros _. split; reflexivity.
Qed.

Lemma target_size_is_floored_fraction_witness :
  Qeq (maxSizeMB (Part000.options (mkFile "a.png" "image/png" []) 10 (3000, 2000)))
      (spec_targetSize (3 # 10) (inject_Z 0 / 1048576) 10)
  /\ Qeq (maxSizeMB (AppJs.options (mkFile "a.png" "image/png" []) 10))
         (spec_targetSize 1 (inject_Z 0 / 1048576) 10).
Proof.
  apply (target_size_is_floored_fraction (mkFile "a.png" "image/png" []) 10 (3000, 2000)).
  lia.
Defined.

(** The target is never below the floor, and for a strength in [0, 100] it
    is never above the larger of the floor and the original size. *)
Lemma spec_targetSize_bounds (floor originalMB : Q) (strength : Z) :
  (0 <= originalMB)%Q -> 0 <= strength <= 100 ->
  (floor <= spec_targetSize floor originalMB strength)%Q
  /\ (spec_targetSize floor originalMB strength <= Qmax floor originalMB)%Q.
Proof.
  intros Hpos [Hlo Hhi]. unfold spec_targetSize. split.
  - apply Q.le_max_l.
  - apply Q.max_le_compat_l.
    assert (H0 : (0 <= inject_Z strength / 100)%Q).
    { apply Qle_shift_div_l; [reflexivity|].
      rewrite Qmult_0_l. change 0%Q with (inject_Z 0). rewrite <- Zle_Qle. lia. }
    set (t := (inject_Z strength / 100)%Q) in *. nra.
Qed.

(** C4.  The maximum pixel dimension handed to the encoder is 4000 when the
    larger axis exceeds 4000, else 2000 when it exceeds 2000, else the larger
    axis itself; it never exceeds the larger axis. *)
Theorem max_dimension_tiers (f : File) (strength width height : Z) :
  let larger := Z.max width height in
  let target := maxWidthOrHeight (Part000.options f strength (width, height)) in
  (4000 < larger -> target = 4000)
  /\ (2000 < larger <= 4000 -> target = 2000)
  /\ (larger <= 2000 -> target = larger)
  /\ target <= larger.
Proof.
  cbn. unfold Part000.maxWidthOrHeightOf, Part000.maxDimension. cbn [fst snd].
  destruct (Z.gtb_spec (Z.max width height) 4000);
    destruct (Z.gtb_spec (Z.max width height) 2000); lia.
Qed.

Lemma max_dimension_tiers_witness :
  maxWidthOrHeight (Part000.options (mkFile "a.jpg" "image/jpeg" []) 10 (3000, 2000))
    = 2000
  /\ maxWidthOrHeight (Part000.options (mkFile "a.jpg" "image/jpeg" []) 10 (640, 480))
    = 640.
Proof.
  split.
  - apply (max_dimension_tiers (mkFile "a.jpg" "image/jpeg" []) 10 3000 2000).
    cbn. lia.
  - apply (max_dimension_tiers (mkFile "a.jpg" "image/jpeg" []) 10 640 480).
    cbn. lia.
Defined.

(** ** The strength controls *)

Lemma chip_values_distinct :
  NoDup (value <$> Part000_compressionOptions)
  /\ NoDup (value <$> AppJs_compressionOptions).
Proof. split; compute_done. Qed.

Lemma activeChips_none (opts : list ChipOption) (v : Z) (w : World) :
  v ∉ value <$> opts ->
  activeChips opts (handleChipClick v w) = [].
Proof.
  unfold activeChips, chipActive, handleChipClick. cbn.
  induction opts as [|q opts IH]; intros Hnot; [reflexivity|].
  cbn in Hnot. apply not_elem_of_cons in Hnot as [Hq Hnot].
  cbn. rewrite bool_decide_eq_false_2 by congruence. by apply IH.
Qed.

Lemma activeChips_after_click (opts : list ChipOption) (o : ChipOption) (w : World) :
  NoDup (value <$> opts) -> o ∈ opts ->
  activeChips opts (handleChipClick (value o) w) = [o].
Proof.
  induction opts as [|p opts IH]; intros Hnd Hin.
  - by apply elem_of_nil in Hin.
  - cbn in Hnd. apply NoDup_cons in Hnd as [Hp Hnd].
    apply elem_of_cons in Hin as [->|Hin].
    + pose proof (activeChips_none opts (value p) w Hp) as Hrest.
      unfold activeChips, chipActive, handleChipClick in *. cbn in *.
      rewrite bool_decide_eq_true_2 by done. by rewrite Hrest.
    + specialize (IH Hnd Hin).
      unfold activeChips, chipActive, handleChipClick in *. cbn in *.
      rewrite bool_decide_eq_false_2; [exact IH|].
      intros [= Heq]. apply Hp. rewrite <- Heq.
      by apply list_elem_of_fmap_2.
Qed.

(** C8.  A click on a preset sets the strength to that preset's value and
    leaves that preset, and no other, active; a change of the slider, in
    whatever state, sets the strength to the slider value and leaves no
    preset active. *)
Theorem preset_and_slider_exclusive (opts : list ChipOption) :
  opts = Part000_compressionOptions \/ opts = AppJs_compressionOptions ->
  (forall (o : ChipOption) (w : World), o ∈ opts ->
     compressionValue (handleChipClick (value o) w) = value o
     /\ activeChips opts (handleChipClick (value o) w) = [o])
  /\ (forall (newValue : Z) (w : World),
     compressionValue (handleSliderChange newValue w) = newValue
     /\ activeChips opts (handleSliderChange newValue w) = []).
Proof.
  intros Hopts. split.
  - intros o w Hin. split; [reflexivity|].
    apply activeChips_after_click; [|exact Hin].
    destruct Hopts as [-> | ->]; apply chip_values_distinct.
  - intros v w. split; [reflexivity|].
    unfold activeChips, chipActive. cbn.
    clear Hopts. induction opts as [|p opts' IH]; [reflexivity|].
    cbn. rewrite bool_decide_eq_false_2 by discriminate. exact IH.
Qed.

Lemma preset_and_slider_exclusive_witness :
  let w := handleChipClick 30 (initialWorld 10) in
  (compressionValue w = 30
   /\ activeChips Part000_compressionOptions w = [mkChipOption "표준화질 (70%)" 30])
  /\ (compressionValue (handleSliderChange 30 w) = 30
      /\ activeChips Part000_compressionOptions (handleSliderChange 30 w) = []).
Proof.
  intros w.
  destruct (preset_and_slider_exclusive Part000_compressionOptions (or_introl eq_refl))
    as [Hchip Hslider].
  split.
  - apply (Hchip (mkChipOption "표준화질 (70%)" 30) (initialWorld 10)).
    unfold Part000_compressionOptions. do 2 apply list_elem_of_further.
    apply list_elem_of_here.
  - apply Hslider.
Defined.

(** ** Selecting files *)

Lemma mapCreateObjectURL_spec (files : list File) :
  forall (st st' : UrlStore) (urls : list Url),
    mapCreateObjectURL files st = (urls, st') ->
    nextUrl st' = (nextUrl st + N.of_nat (length files))%N
    /\ urls = (fun i => (nextUrl st + N.of_nat i)%N) <$> seq 0 (length files)
    /\ (forall u, (u < nextUrl st)%N -> blobs st' !! u = blobs st !! u)
    /\ (forall i f, files !! i = Some f ->
          blobs st' !! (nextUrl st + N.of_nat i)%N = Some f).
Proof.
  induction files as [|f files IH]; intros st st' urls Hrun.
  - cbn in Hrun. injection Hrun as <- <-. cbn.
    split; [lia|]. split; [done|]. split; [done|].
    intros i f Hi. by rewrite lookup_nil in Hi.
  - cbn in Hrun. unfold bind, createObjectURL in Hrun. cbn in Hrun.
    destruct (mapCreateObjectURL files _) as [us st1] eqn:Hrest.
    cbn in Hrun. injection Hrun as <- <-.
    apply IH in Hrest as (Hnext & Hus & Hold & Hnew). cbn in Hnext, Hus, Hold, Hnew.
    repeat split.
    + rewrite Hnext. cbn [length]. lia.
    + cbn [length seq fmap list_fmap]. f_equal; [f_equal; lia|].
      rewrite Hus, <- seq_shift, <- list_fmap_compose.
      apply list_fmap_ext. intros _ i _. cbn. lia.
    + intros u Hu. rewrite Hold by lia. apply lookup_insert_ne. lia.
    + intros [|i] g Hi; cbn in Hi.
      * injection Hi as <-. rewrite Hold by lia.
        replace (nextUrl st + N.of_nat 0)%N with (nextUrl st) by lia.
        apply lookup_insert_eq.
      * rewrite <- (Hnew i g Hi). f_equal. lia.
Qed.







(** ** The download name *)

Lemma allChars_app (p : ascii -> bool) (a b : string) :
  allChars p (a +:+ b) = allChars p a && allChars p b.
Proof.
  induction a as [|c a IH]; [reflexivity|].
  simpl. rewrite IH. by rewrite andb_assoc.
Qed.

Lemma nonEmpty_app_dot (a b : string) : nonEmpty (a +:+ String "." b) = true.
Proof. by destruct a. Qed.

Lemma stripExtension_app (base ext : string) :
  nonEmpty ext = true -> allChars notSlashDot ext = true ->
  stripExtension (base +:+ String "." ext) = base.
Proof.
  intros Hne Hext. induction base as [|c base IH].
  - simpl. by rewrite Hne, Hext.
  - simpl. rewrite IH.
    rewrite allChars_app. simpl.
    by rewrite andb_false_r, !andb_false_r.
Qed.

Lemma splitDot_no_dot (s : string) :
  allChars notSlashDot s = true -> splitDot s = [s].
Proof.
  induction s as [|c s IH]; [reflexivity|].
  simpl. intros [Hc Hs]%andb_true_iff. rewrite (IH Hs).
  unfold notSlashDot in Hc. apply andb_true_iff in Hc as [_ Hc].
  apply negb_true_iff in Hc. by rewrite Hc.
Qed.

Lemma pop_cons (seg : string) (segs : list string) :
  segs <> [] -> pop (seg :: segs) = pop segs.
Proof. unfold pop. by destruct segs. Qed.

Lemma splitDot_app (base ext : string) :
  allChars notSlashDot ext = true ->
  exists seg segs, splitDot (base +:+ String "." ext) = seg :: segs
                   /\ segs <> [] /\ pop segs = ext.
Proof.
  intros Hext. induction base as [|c base (seg & segs & Heq & Hne & Hpop)].
  - simpl. rewrite (splitDot_no_dot ext Hext). by exists EmptyString, [ext].
  - simpl. rewrite Heq. destruct (Ascii.eqb c ".").
    + exists EmptyString, (seg :: segs). split; [done|]. split; [done|].
      by rewrite pop_cons.
    + by exists (String c seg), segs.
Qed.

(** For a name that ends in a dot and a non-empty extension free of [.] and
    [/], the download name is the part before that dot, the suffix, and the
    extension again. *)
Lemma downloadName_with_extension (base ext : string) :
  nonEmpty ext = true -> allChars notSlashDot ext = true ->
  downloadName (base +:+ "." +:+ ext) = base +:+ suffix_jelly +:+ "." +:+ ext.
Proof.
  intros Hne Hext. unfold downloadName.
  change (base +:+ "." +:+ ext) with (base +:+ String "." ext).
  rewrite (stripExtension_app base ext Hne Hext).
  destruct (splitDot_app base ext Hext) as (seg & segs & -> & Hsegs & Hpop).
  by rewrite pop_cons, Hpop.
Qed.

(** A name without a dot is not cut, and [split('.').pop()] returns the
    whole name. *)
Lemma downloadName_without_dot (name : string) :
  allChars notSlashDot name = true ->
  downloadName name = name +:+ suffix_jelly +:+ "." +:+ name.
Proof.
  intros Hname. unfold downloadName.
  rewrite (splitDot_no_dot name Hname). cbn [pop List.last].
  f_equal. clear -Hname. induction name as [|c name IH]; [reflexivity|].
  cbn in Hname. apply andb_true_iff in Hname as [Hc Hname].
  simpl. rewrite (IH Hname).
  unfold notSlashDot in Hc. apply andb_true_iff in Hc as [_ Hc].
  apply negb_true_iff in Hc. by rewrite Hc.
Qed.

(** C9, at a file name without an extension: the name offered for download
    ends in a dot and the whole original name, an extension the file never
    had. *)
Theorem download_name_of_dotless_file :
  downloadName "photo" = "photo_jelly_image_compress.photo".
Proof. reflexivity. Qed.

(** ** The pipeline of the variant with fallback *)

Section PipelineFacts.
Variable loadImage : File -> option (Z * Z).
Variable imageCompression : File -> Options -> Error + File.

(** When the image loads and the encoder returns, the callback fulfils,
    with the kept file behind a fresh URL; the temporary URL is gone. *)
Lemma compressFile_fulfilled (f compressed : File) (strength : Z) (img : Z * Z)
      (st : UrlStore) :
  loadImage f = Some img ->
  imageCompression f (Part000.options f strength img) = inr compressed ->
  Part000.compressFile loadImage imageCompression f strength st =
    (Fulfilled {| url := N.succ (nextUrl st);
                  file := Part000.keepSmaller f compressed;
                  originalName := file_name f;
                  stats := Some (Part000.statsOf (file_size f)
                             (file_size (Part000.keepSmaller f compressed))) |},
     mkUrlStore (N.succ (N.succ (nextUrl st)))
       (<[N.succ (nextUrl st) := Part000.keepSmaller f compressed]>
          (delete (nextUrl st) (<[nextUrl st := f]> (blobs st))))).
Proof.
  intros Himg Henc. unfold Part000.compressFile, bind.
  cbn. rewrite Himg. cbn. rewrite Henc. reflexivity.
Qed.

Lemma compressFile_rejected (f : File) (e : Error) (strength : Z) (img : Z * Z)
      (st : UrlStore) :
  loadImage f = Some img ->
  imageCompression f (Part000.options f strength img) = inl e ->
  Part000.compressFile loadImage imageCompression f strength st =
    (Rejected e,
     mkUrlStore (N.succ (nextUrl st))
       (delete (nextUrl st) (<[nextUrl st := f]> (blobs st)))).
Proof.
  intros Himg Henc. unfold Part000.compressFile, bind.
  cbn. rewrite Himg. cbn. rewrite Henc. reflexivity.
Qed.

Lemma compressFile_pending (f : File) (strength : Z) (st : UrlStore) :
  loadImage f = None ->
  Part000.compressFile loadImage imageCompression f strength st =
    (Pending, mkUrlStore (N.succ (nextUrl st)) (<[nextUrl st := f]> (blobs st))).
Proof.
  intros Himg. unfold Part000.compressFile, bind.
  cbn. rewrite Himg. reflexivity.
Qed.
End PipelineFacts.

Lemma keepSmaller_size (f compressed : File) :
  file_size (Part000.keepSmaller f compressed) <= file_size f.
Proof.
  unfold Part000.keepSmaller.
  destruct (Z.gtb_spec (file_size compressed) (file_size f)); lia.
Qed.

Lemma megabytes_mono (a b : Z) : a <= b -> (megabytes a <= megabytes b)%Q.
Proof.
  intros Hab. unfold megabytes.
  apply Qmult_le_compat_r; [by rewrite <- Zle_Qle | discriminate].
Qed.

Lemma roundHalfUp_mono (x y : Q) (d : nat) :
  (x <= y)%Q -> roundHalfUp x d <= roundHalfUp y d.
Proof.
  intros Hxy. unfold roundHalfUp. apply Qfloor_resp_le.
  apply Qplus_le_compat; [|apply Qle_refl].
  apply Qmult_le_compat_r; [exact Hxy|].
  change 0%Q with (inject_Z 0). rewrite <- Zle_Qle. unfold pow10. lia.
Qed.

Lemma toFixed_nonneg (x : Q) (d : nat) :
  (0 <= x)%Q -> toFixed x d = fixedDigits (roundHalfUp x d) d.
Proof.
  intros Hx. unfold toFixed. destruct (Qlt_le_dec x 0) as [Hneg|_]; [|reflexivity].
  exfalso. by apply (Qlt_not_le _ _ Hneg).
Qed.

Lemma megabytes_nonneg (a : Z) : 0 <= a -> (0 <= megabytes a)%Q.
Proof.
  intros Ha. unfold megabytes. apply Qle_shift_div_l; [reflexivity|].
  rewrite Qmult_0_l. change 0%Q with (inject_Z 0). by rewrite <- Zle_Qle.
Qed.

(** C1, as the code has it.  For every image that loads and that the encoder
    returns a file for, the callback fulfils; the kept file is the input when
    the encoder's output is strictly larger than the input, and the
    encoder's output otherwise; the kept file is never larger than the input,
    and neither is its reported size (hundredths of a megabyte) larger than
    the reported original size. *)
Theorem fallback_when_output_is_larger
    (loadImage : File -> option (Z * Z))
    (imageCompression : File -> Options -> Error + File)
    (f compressed : File) (strength : Z) (img : Z * Z) (st : UrlStore) :
  loadImage f = Some img ->
  imageCompression f (Part000.options f strength img) = inr compressed ->
  exists (r : Result) (st' : UrlStore),
    Part000.compressFile loadImage imageCompression f strength st = (Fulfilled r, st')
    /\ (file_size f < file_size compressed -> file r = f)
    /\ (file_size compressed <= file_size f -> file r = compressed)
    /\ file_size (file r) <= file_size f
    /\ (exists s, stats r = Some s
         /\ originalSize s
            = fixedDigits (roundHalfUp (megabytes (file_size f)) 2) 2 +:+ "MB"
         /\ compressedSize s
            = fixedDigits (roundHalfUp (megabytes (file_size (file r))) 2) 2 +:+ "MB")
    /\ roundHalfUp (megabytes (file_size (file r))) 2
       <= roundHalfUp (megabytes (file_size f)) 2.
Proof.
  intros Himg Henc. eexists _, _. split.
  { exact (compressFile_fulfilled _ _ f compressed strength img st Himg Henc). }
  cbn [file stats]. pose proof (keepSmaller_size f compressed) as Hle.
  repeat split.
  - intros Hlt. unfold Part000.keepSmaller.
    destruct (Z.gtb_spec (file_size compressed) (file_size f)); [done|lia].
  - intros Hge. unfold Part000.keepSmaller.
    destruct (Z.gtb_spec (file_size compressed) (file_size f)); [lia|done].
  - exact Hle.
  - eexists. split; [reflexivity|]. unfold Part000.statsOf. cbn.
    rewrite !toFixed_nonneg; [done| |]; apply megabytes_nonneg; unfold file_size; lia.
  - apply roundHalfUp_mono, megabytes_mono, Hle.
Qed.

(** ** The fallback and the small-file flag *)


Lemma file100KB_size : file_size file100KB = 102400.
Proof. vm_compute. reflexivity. Qed.

(** C1, as stated, fails when the encoder's output is exactly as large as
    the input: the output is not strictly smaller, and yet it is kept. *)
Lemma equal_size_output_is_kept :
  let enc := recode (fmap (fun _ => Byte.x00)) in
  exists (compressed : File) (r : Result) (st' : UrlStore),
    enc file100KB (Part000.options file100KB 50 (3000, 2000)) = inr compressed
    /\ ~ file_size compressed < file_size file100KB
    /\ Part000.compressFile (decodesTo (3000, 2000)) enc file100KB 50 emptyStore
       = (Fulfilled r, st')
    /\ file r <> file100KB.
Proof.
  intros enc.
  set (compressed := mkFile "big.jpg" "image/jpeg"
                       ((fun _ => Byte.x00) <$> file_data file100KB)).
  assert (Henc : enc file100KB (Part000.options file100KB 50 (3000, 2000))
                 = inr compressed).
  { unfold enc, recode. cbn [skipCompression Part000.options].
    rewrite file100KB_size. reflexivity. }
  assert (Hsize : file_size compressed = 102400).
  { unfold compressed, file_size. cbn [file_data]. rewrite length_fmap.
    exact file100KB_size. }
  eexists compressed, _, _. split; [exact Henc|]. split.
  { rewrite Hsize, file100KB_size. lia. }
  split.
  { apply (compressFile_fulfilled _ _ _ compressed 50 (3000, 2000)); [reflexivity|exact Henc]. }
  cbn [file]. unfold Part000.keepSmaller. rewrite Hsize, file100KB_size. cbn.
  intros Heq. apply (f_equal (fun g => head (file_data g))) in Heq.
  vm_compute in Heq. discriminate.
Qed.

Lemma fallback_when_output_is_larger_witness :
  let enc := recode (fun bytes => bytes ++ bytes) in
  exists (r : Result) (st' : UrlStore),
    Part000.compressFile (decodesTo (3000, 2000)) enc file100KB 50 emptyStore
      = (Fulfilled r, st')
    /\ file r = file100KB.
Proof.
  intros enc.
  set (doubled := mkFile "big.jpg" "image/jpeg"
                    (file_data file100KB ++ file_data file100KB)).
  assert (Henc : enc file100KB (Part000.options file100KB 50 (3000, 2000))
                 = inr doubled).
  { unfold enc, recode. cbn [skipCompression Part000.options].
    rewrite file100KB_size. reflexivity. }
  assert (Hsize : file_size doubled = 204800).
  { unfold doubled, file_size. cbn [file_data].
    rewrite length_app, Nat2Z.inj_add.
    change (Z.of_nat (length (file_data file100KB))) with (file_size file100KB).
    rewrite file100KB_size. reflexivity. }
  destruct (fallback_when_output_is_larger (decodesTo (3000, 2000)) enc
              file100KB doubled 50 (3000, 2000) emptyStore eq_refl Henc)
    as (r & st' & Hrun & Hlarger & _).
  exists r, st'. split; [exact Hrun|].
  apply Hlarger. rewrite Hsize, file100KB_size. lia.
Defined.




(** ** The statistics *)











(** ** [Promise.all] over the callbacks of one batch *)

Section Batches.
Variable compressFile : File -> Z -> M Outcome.

Lemma settleAll_cons (b : Batch) (i : nat) (rest : list nat) (pa : PromiseAll)
      (st : UrlStore) :
  settleAll compressFile b (i :: rest) pa st =
    match batchFiles b !! i with
    | None => settleAll compressFile b rest pa st
    | Some f =>
        settleAll compressFile b rest
          (notify i (compressFile f (batchValue b) st).1 pa)
          (compressFile f (batchValue b) st).2
    end.
Proof.
  cbn. destruct (batchFiles b !! i) as [f|]; [|reflexivity].
  unfold bind. by destruct (compressFile f (batchValue b) st).
Qed.

Lemma resolveWith_aligned (b : Batch) (vs : list (option Result)) (rs : list Result) :
  length vs = length (batchFiles b) ->
  (forall i r, vs !! i = Some (Some r) ->
     exists f, batchFiles b !! i = Some f /\ producedBy compressFile f (batchValue b) r) ->
  resolveWith vs = ResolvedWith rs ->
  alignedWith compressFile (batchFiles b) (batchValue b) rs.
Proof.
  intros Hlen Hslots. unfold resolveWith.
  destruct (mapM id vs) as [rs'|] eqn:Hmap; [|discriminate].
  intros [= <-]. apply mapM_Some in Hmap. split.
  - by rewrite <- (Forall2_length _ _ _ Hmap).
  - intros i r Hi.
    destruct (Forall2_lookup_r _ _ _ _ _ Hmap Hi) as (o & Ho & Hid).
    cbn in Hid. subst o. by apply Hslots.
Qed.

Lemma notify_aligned (b : Batch) (i : nat) (f : File) (st : UrlStore)
      (pa : PromiseAll) :
  batchFiles b !! i = Some f ->
  slotsAligned compressFile b pa -> resolvedAligned compressFile b pa ->
  let pa' := notify i (compressFile f (batchValue b) st).1 pa in
  slotsAligned compressFile b pa' /\ resolvedAligned compressFile b pa'.
Proof.
  intros Hf [Hlen Hslots] Hres.
  destruct (compressFile f (batchValue b) st) as [o st'] eqn:Hrun. cbn.
  destruct o as [r|e|]; cbn.
  - assert (Hslots' : forall j r', <[i := Some r]> (values pa) !! j = Some (Some r') ->
              exists g, batchFiles b !! j = Some g /\ producedBy compressFile g (batchValue b) r').
    { intros j r' Hj. destruct (decide (i = j)) as [<-|Hij].
      - rewrite list_lookup_insert_eq in Hj.
        + injection Hj as <-. exists f. split; [done|]. by exists st, st'.
        + rewrite Hlen. by apply lookup_lt_Some in Hf.
      - rewrite list_lookup_insert_ne in Hj by done. by apply Hslots. }
    split.
    + split; cbn; [by rewrite length_insert | exact Hslots'].
    + intros rs. cbn.
      destruct (promiseState pa) eqn:Hstate; try discriminate.
      * destruct (pred (remainingElementsCount pa)); [|discriminate].
        apply resolveWith_aligned; [by rewrite length_insert | exact Hslots'].
      * intros [= <-]. by apply Hres.
  - split; [done|]. intros rs. cbn.
    destruct (promiseState pa) eqn:Hstate; try discriminate.
    intros [= <-]. by apply Hres.
  - done.
Qed.

(** Whatever the order in which the callbacks end, the aggregate promise
    never resolves with anything but one result per file, in the order of
    the files. *)
Lemma settleAll_aligned (b : Batch) (sched : list nat) :
  forall (pa : PromiseAll) (st : UrlStore),
    slotsAligned compressFile b pa -> resolvedAligned compressFile b pa ->
    slotsAligned compressFile b (settleAll compressFile b sched pa st).1
    /\ resolvedAligned compressFile b (settleAll compressFile b sched pa st).1.
Proof.
  induction sched as [|i rest IH]; intros pa st Hslots Hres; [done|].
  rewrite settleAll_cons. destruct (batchFiles b !! i) as [f|] eqn:Hf.
  - destruct (notify_aligned b i f st pa Hf Hslots Hres) as [Hs Hr].
    by apply IH.
  - by apply IH.
Qed.

Lemma newPromiseAll_aligned (b : Batch) :
  slotsAligned compressFile b (newPromiseAll (length (batchFiles b)))
  /\ resolvedAligned compressFile b (newPromiseAll (length (batchFiles b))).
Proof.
  split.
  - split; [apply length_replicate|].
    intros i r Hi. cbn in Hi. apply lookup_replicate in Hi as [? _]. discriminate.
  - intros rs. cbn. destruct (length (batchFiles b)) eqn:Hn; [|discriminate].
    intros [= <-]. split; [by rewrite Hn|].
    intros i r Hi. by rewrite lookup_nil in Hi.
Qed.
End Batches.

(** ** Progress of the aggregate promise *)

Lemma distinct_indices_bounded (l : list nat) (n : nat) :
  NoDup l -> (forall i, i ∈ l -> (i < n)%nat) -> (length l <= n)%nat.
Proof.
  intros Hnd Hlt. rewrite <- (length_seq n 0). apply submseteq_length.
  apply NoDup_submseteq; [exact Hnd|].
  intros i Hi. apply elem_of_seq. specialize (Hlt i Hi). lia.
Qed.

Lemma distinct_indices_cover (l : list nat) (n : nat) :
  NoDup l -> (forall i, i ∈ l -> (i < n)%nat) -> length l = n ->
  forall j, (j < n)%nat -> j ∈ l.
Proof.
  intros Hnd Hlt Hlen j Hj.
  assert (Hsub : l ⊆+ seq 0 n).
  { apply NoDup_submseteq; [exact Hnd|].
    intros i Hi. apply elem_of_seq. specialize (Hlt i Hi). lia. }
  apply submseteq_length_Permutation in Hsub; [|rewrite length_seq; lia].
  rewrite Hsub. apply elem_of_seq. lia.
Qed.

Lemma elem_of_snoc (done : list nat) (i : nat) : i ∈ done ++ [i].
Proof. apply elem_of_app. right. apply list_elem_of_here. Qed.

Lemma elem_of_middle (done rest : list nat) (i : nat) : i ∈ done ++ i :: rest.
Proof. apply elem_of_app. right. apply list_elem_of_here. Qed.

Section BatchProgress.
Variable compressFile : File -> Z -> M Outcome.
Variable b : Batch.

Lemma newPromiseAll_fulfilledSoFar :
  fulfilledSoFar b [] (newPromiseAll (length (batchFiles b))).
Proof.
  unfold fulfilledSoFar, newPromiseAll. cbn.
  split; [apply length_replicate|]. split.
  { intros i Hi. by apply elem_of_nil in Hi. }
  split; [lia|]. destruct (length (batchFiles b)); split; intros; try lia; eauto.
Qed.

Lemma resolveElement_progress (done : list nat) (i : nat) (r : Result)
      (pa : PromiseAll) :
  NoDup (done ++ [i]) ->
  (forall j, j ∈ done ++ [i] -> (j < length (batchFiles b))%nat) ->
  fulfilledSoFar b done pa ->
  fulfilledSoFar b (done ++ [i]) (resolveElement i r pa).
Proof.
  intros Hnd Hlt (Hlen & Hfilled & Hrem & Hpend & _).
  pose proof (distinct_indices_bounded _ _ Hnd Hlt) as Hbound.
  rewrite length_app in Hbound. cbn in Hbound.
  assert (Hi : (i < length (batchFiles b))%nat) by apply Hlt, elem_of_snoc.
  assert (Hfilled' : forall j, j ∈ done ++ [i] ->
            exists r', <[i := Some r]> (values pa) !! j = Some (Some r')).
  { intros j Hj. destruct (decide (i = j)) as [<-|Hij].
    - exists r. apply list_lookup_insert_eq. lia.
    - rewrite list_lookup_insert_ne by done. apply Hfilled.
      apply elem_of_app in Hj as [Hj|Hj]; [exact Hj|].
      apply list_elem_of_singleton in Hj. congruence. }
  unfold fulfilledSoFar, resolveElement. cbn.
  split; [by rewrite length_insert|]. split; [exact Hfilled'|].
  split; [rewrite length_app; cbn; lia|].
  rewrite Hpend by lia. rewrite length_app. cbn.
  destruct (pred (remainingElementsCount pa)) eqn:Hpred.
  - split; [lia|]. intros Hfull.
    assert (Hall : is_Some (mapM id (<[i := Some r]> (values pa)))).
    { apply mapM_is_Some, Forall_lookup. intros j o Hj.
      assert (Hjn : (j < length (batchFiles b))%nat).
      { apply lookup_lt_Some in Hj. by rewrite length_insert, Hlen in Hj. }
      destruct (Hfilled' j) as [r' Hr'].
      - apply (distinct_indices_cover _ _ Hnd Hlt); [|exact Hjn].
        rewrite length_app. cbn. lia.
      - rewrite Hr' in Hj. injection Hj as <-. by eexists. }
    destruct Hall as [rs Hrs]. exists rs. unfold resolveWith. by rewrite Hrs.
  - split; [done|]. lia.
Qed.

(** When every callback fulfils and each of them ends exactly once, the
    aggregate promise resolves. *)
Lemma settleAll_resolves (sched : list nat) :
  forall (done : list nat) (pa : PromiseAll) (st : UrlStore),
    NoDup (done ++ sched) ->
    (forall i, i ∈ done ++ sched -> (i < length (batchFiles b))%nat) ->
    (forall i f st0, batchFiles b !! i = Some f ->
       exists r st1, compressFile f (batchValue b) st0 = (Fulfilled r, st1)) ->
    fulfilledSoFar b done pa ->
    fulfilledSoFar b (done ++ sched) (settleAll compressFile b sched pa st).1.
Proof.
  induction sched as [|i rest IH]; intros done pa st Hnd Hlt Hall Hinv.
  - by rewrite app_nil_r.
  - rewrite settleAll_cons.
    assert (Hi : (i < length (batchFiles b))%nat) by apply Hlt, elem_of_middle.
    destruct (lookup_lt_is_Some_2 (batchFiles b) i Hi) as [f Hf]. rewrite Hf.
    destruct (Hall i f st Hf) as (r & st1 & Hrun). rewrite Hrun. cbn.
    rewrite cons_middle, app_assoc in Hnd, Hlt |- *.
    apply IH; [exact Hnd | exact Hlt | exact Hall |].
    apply resolveElement_progress; [| |exact Hinv].
    + by apply NoDup_app in Hnd as (? & _ & _).
    + intros j Hj. apply Hlt, elem_of_app. by left.
Qed.

(** A settled promise stays as it is. *)
Lemma notify_rejected (i : nat) (o : Outcome) (pa : PromiseAll) (e : Error) :
  promiseState pa = RejectedWith e -> promiseState (notify i o pa) = RejectedWith e.
Proof. intros Hst. destruct o; cbn; by rewrite ?Hst. Qed.

Lemma settleAll_rejected (sched : list nat) :
  forall (pa : PromiseAll) (st : UrlStore) (e : Error),
    promiseState pa = RejectedWith e ->
    promiseState (settleAll compressFile b sched pa st).1 = RejectedWith e.
Proof.
  induction sched as [|i rest IH]; intros pa st e Hst; [done|].
  rewrite settleAll_cons. destruct (batchFiles b !! i) as [f|]; [|by apply IH].
  by apply IH, notify_rejected.
Qed.

(** When one of the callbacks that end rejects, the aggregate promise
    rejects, whatever the other callbacks do and in whatever order. *)
Lemma settleAll_rejects (sched : list nat) (i0 : nat) (f0 : File) :
  batchFiles b !! i0 = Some f0 ->
  (forall st0, exists e st1, compressFile f0 (batchValue b) st0 = (Rejected e, st1)) ->
  forall (done : list nat) (pa : PromiseAll) (st : UrlStore),
    NoDup (done ++ sched) ->
    (forall i, i ∈ done ++ sched -> (i < length (batchFiles b))%nat) ->
    i0 ∈ sched ->
    (length (batchFiles b) <= remainingElementsCount pa + length done)%nat ->
    unresolved pa ->
    exists e, promiseState (settleAll compressFile b sched pa st).1 = RejectedWith e.
Proof.
  intros Hf0 Hrej.
  induction sched as [|i rest IH]; intros done pa st Hnd Hlt Hin Hrem Hunres.
  - by apply elem_of_nil in Hin.
  - rewrite settleAll_cons.
    assert (Hi : (i < length (batchFiles b))%nat) by apply Hlt, elem_of_middle.
    destruct (lookup_lt_is_Some_2 (batchFiles b) i Hi) as [f Hf]. rewrite Hf.
    destruct (decide (i = i0)) as [->|Hne].
    + rewrite Hf0 in Hf. injection Hf as <-.
      destruct (Hrej st) as (e & st1 & Hrun). rewrite Hrun. cbn.
      destruct (promiseState pa) as [|rs|e'] eqn:Hst.
      * exists e. apply settleAll_rejected. cbn. by rewrite Hst.
      * by destruct (Hunres rs).
      * exists e'. apply settleAll_rejected. cbn. by rewrite Hst.
    + assert (Hin' : i0 ∈ rest).
      { apply elem_of_cons in Hin as [Heq|Hin]; [congruence|exact Hin]. }
      pose proof (distinct_indices_bounded _ _ Hnd Hlt) as Hbound.
      rewrite length_app in Hbound. cbn in Hbound.
      assert (Hrest : (1 <= length rest)%nat).
      { destruct rest; [by apply elem_of_nil in Hin'|cbn; lia]. }
      rewrite cons_middle, app_assoc in Hnd, Hlt.
      apply (IH (done ++ [i])); [exact Hnd | exact Hlt | exact Hin' | |].
      * rewrite length_app. cbn.
        destruct (compressFile f (batchValue b) st) as [[r|e|] st1]; cbn; lia.
      * intros rs.
        destruct (compressFile f (batchValue b) st) as [[r|e|] st1]; cbn.
        -- destruct (promiseState pa) as [|rs'|e'] eqn:Hst;
             [|by destruct (Hunres rs')|done].
           destruct (pred (remainingElementsCount pa)) eqn:Hpred; [lia|done].
        -- destruct (promiseState pa) as [|rs'|e'] eqn:Hst;
             [done|by destruct (Hunres rs')|done].
        -- apply Hunres.
Qed.

End BatchProgress.

(** ** The result list on display *)

Section Display.
Variable compressFile : File -> Z -> M Outcome.

(** What the continuation of [handleCompress] changes. *)
Lemma resume_cases (k : nat) (sched : list nat) (w : World) :
  let w' := handleCompress_resume compressFile k sched w in
  w' = w
  \/ exists b st,
       inflight w !! k = Some b
       /\ selectedFiles w' = selectedFiles w
       /\ previewUrls w' = previewUrls w
       /\ compressionValue w' = compressionValue w
       /\ selectedChip w' = selectedChip w
       /\ inflight w' = delete k (inflight w)
       /\ objectUrls w' = st
       /\ isCompressing w' = false
       /\ ((exists rs,
              promiseState (settleAll compressFile b sched
                              (newPromiseAll (length (batchFiles b)))
                              (objectUrls w)).1 = ResolvedWith rs
              /\ compressedUrls w' = rs /\ console w' = console w)
           \/ (exists e,
              promiseState (settleAll compressFile b sched
                              (newPromiseAll (length (batchFiles b)))
                              (objectUrls w)).1 = RejectedWith e
              /\ compressedUrls w' = compressedUrls w
              /\ console w' = console w ++ [(errorMessage, e)])).
Proof.
  intros w'. subst w'. unfold handleCompress_resume.
  destruct (inflight w !! k) as [b|] eqn:Hb; [|by left].
  destruct (settleAll compressFile b sched _ (objectUrls w)) as [pa st] eqn:Hrun.
  cbn [fst]. destruct (promiseState pa) as [|rs|e] eqn:Hst; [left; done| |].
  - right. exists b, st. repeat split; try done. left. exists rs.
    rewrite Hrun. by split.
  - right. exists b, st. repeat split; try done. right. exists e.
    rewrite Hrun. by split.
Qed.

(** A batch publishes all its results at once or none: after the
    continuation the result list is the old one, or one result per file of
    the batch, in the order of the files. *)
Lemma resume_all_or_nothing (k : nat) (sched : list nat) (w : World) (b : Batch) :
  inflight w !! k = Some b ->
  let w' := handleCompress_resume compressFile k sched w in
  compressedUrls w' = compressedUrls w
  \/ alignedWith compressFile (batchFiles b) (batchValue b) (compressedUrls w').
Proof.
  intros Hb w'. destruct (resume_cases k sched w) as [Heq|(b' & st & Hb' & Hrest)].
  - left. unfold w'. by rewrite Heq.
  - rewrite Hb in Hb'. injection Hb' as <-.
    destruct Hrest as (_ & _ & _ & _ & _ & _ & _ & [(rs & Hst & Hrs & _)|(e & _ & Hrs & _)]).
    + right. unfold w'. rewrite Hrs.
      destruct (newPromiseAll_aligned compressFile b) as [Hs Hr].
      destruct (settleAll_aligned compressFile b sched _ (objectUrls w) Hs Hr) as [_ Hres].
      by apply Hres.
    + by left.
Qed.

Lemma handleFileSelect_fields (files : list File) (w : World) :
  let w' := handleFileSelect files w in
  inflight w' = inflight w
  /\ (files = [] -> w' = w)
  /\ (files <> [] -> selectedFiles w' = files /\ compressedUrls w' = []).
Proof.
  intros w'. subst w'. unfold handleFileSelect. destruct files as [|f files]; [done|].
  destruct (mapCreateObjectURL (f :: files) (objectUrls w)) as [urls st].
  cbn. repeat split; done.
Qed.

Lemma step_keeps_display (w : World) (ev : Event) :
  selectionKept w ev = true ->
  displayAligned compressFile w /\ batchesOfSelection w ->
  displayAligned compressFile (step compressFile w ev) /\ batchesOfSelection (step compressFile w ev).
Proof.
  intros Hkept [Hdisp Hbatches].
  assert (Hselect : forall files, noBatch w || isNil files = true ->
            displayAligned compressFile (handleFileSelect files w)
            /\ batchesOfSelection (handleFileSelect files w)).
  { intros files Hok.
    destruct (handleFileSelect_fields files w) as (Hinf & Hnil & Hcons).
    destruct files as [|f files]; [by rewrite Hnil|].
    destruct (Hcons ltac:(done)) as [Hsel Hres].
    rewrite orb_false_r in Hok. unfold noBatch in Hok.
    destruct (inflight w) eqn:Hw; [|discriminate].
    split.
    - split; [by left|]. intros i r. unfold shownResult. rewrite Hres.
      by rewrite lookup_nil.
    - unfold batchesOfSelection. rewrite Hinf. constructor. }
  destruct ev as [files|dropped|v|v| |k sched]; cbn [step].
  - by apply Hselect.
  - unfold handleDrop. cbn in Hkept.
    destruct (List.filter isImage dropped) as [|f files] eqn:Hfilter; [done|].
    by apply Hselect.
  - done.
  - done.
  - destruct (isCompressing w); [done|]. unfold handleCompress.
    destruct (selectedFiles w) as [|f files] eqn:Hsel; [done|].
    rewrite <- Hsel in *. split; [exact Hdisp|].
    unfold batchesOfSelection in *. cbn. apply Forall_app. split.
    + exact Hbatches.
    + by repeat constructor.
  - destruct (resume_cases k sched w) as [->|(b & st & Hb & Hsel & _ & _ & _ & Hinf & _ & _ & Hout)];
      [done|].
    assert (Hbsel : batchFiles b = selectedFiles w).
    { unfold batchesOfSelection in Hbatches. rewrite Forall_lookup in Hbatches.
      by apply (Hbatches k). }
    split.
    + destruct (resume_all_or_nothing k sched w b Hb) as [Hsame|[Hlen Hal]].
      * destruct Hdisp as [Hlen Hal]. unfold displayAligned, shownResult.
        rewrite Hsame, Hsel. split; [exact Hlen|exact Hal].
      * unfold displayAligned, shownResult. rewrite Hsel, <- Hbsel.
        split; [by right|]. intros i r Hi.
        destruct (Hal i r Hi) as (f & Hf & Hprod). by exists f, (batchValue b).
    + unfold batchesOfSelection. rewrite Hinf, Hsel. by apply Forall_delete.
Qed.

Lemma run_keeps_display (evs : list Event) :
  forall w, quiet compressFile w evs = true ->
    displayAligned compressFile w /\ batchesOfSelection w ->
    displayAligned compressFile (run compressFile w evs) /\ batchesOfSelection (run compressFile w evs).
Proof.
  induction evs as [|ev rest IH]; intros w Hquiet Hinv; [done|].
  cbn in Hquiet. apply andb_true_iff in Hquiet as [Hkept Hquiet].
  cbn. apply IH; [exact Hquiet|]. by apply step_keeps_display.
Qed.
End Display.

(** ** Batches as a whole *)

Section WholeBatches.
Variable compressFile : File -> Z -> M Outcome.

(** When every callback of the batch fulfils and each ends exactly once,
    in whatever order, the continuation publishes one result per file of
    the batch, in the order of the files. *)
Lemma resume_publishes (k : nat) (sched : list nat) (w : World) (b : Batch) :
  inflight w !! k = Some b ->
  sched ≡ₚ seq 0 (length (batchFiles b)) ->
  (forall i f st0, batchFiles b !! i = Some f ->
     exists r st1, compressFile f (batchValue b) st0 = (Fulfilled r, st1)) ->
  let w' := handleCompress_resume compressFile k sched w in
  alignedWith compressFile (batchFiles b) (batchValue b) (compressedUrls w')
  /\ isCompressing w' = false
  /\ console w' = console w.
Proof.
  intros Hb Hperm Hall w'.
  assert (Hnd : NoDup ([] ++ sched)) by (cbn; rewrite Hperm; apply NoDup_seq).
  assert (Hlt : forall i, i ∈ [] ++ sched -> (i < length (batchFiles b))%nat).
  { cbn. intros i Hi. rewrite Hperm in Hi. apply elem_of_seq in Hi. lia. }
  pose proof (settleAll_resolves compressFile b sched [] _ (objectUrls w)
                Hnd Hlt Hall (newPromiseAll_fulfilledSoFar b))
    as (_ & _ & _ & _ & Hdone).
  destruct Hdone as [rs Hrs].
  { cbn. by rewrite Hperm, length_seq. }
  destruct (resume_cases compressFile k sched w)
    as [Heq|(b' & st & Hb' & _ & _ & _ & _ & _ & _ & Hflag & Hout)].
  - exfalso. revert Heq. unfold handleCompress_resume. rewrite Hb.
    destruct (settleAll compressFile b sched _ (objectUrls w)) as [pa st].
    cbn in Hrs. rewrite Hrs. intros Heq.
    apply (f_equal inflight) in Heq. cbn in Heq.
    apply (f_equal length) in Heq. rewrite length_delete in Heq by eauto.
    apply lookup_lt_Some in Hb. lia.
  - rewrite Hb in Hb'. injection Hb' as <-.
    destruct Hout as [(rs' & Hst & Hres & Hcon)|(e & Hst & _)];
      [|rewrite Hrs in Hst; discriminate].
    split; [|done].
    destruct (resume_all_or_nothing compressFile k sched w b Hb) as [Hsame|Hal];
      [|exact Hal].
    unfold w'. rewrite Hres.
    destruct (newPromiseAll_aligned compressFile b) as [Hs Hr].
    destruct (settleAll_aligned compressFile b sched _ (objectUrls w) Hs Hr)
      as [_ Haligned].
    by apply Haligned.
Qed.

(** When a callback of the batch rejects, the continuation leaves the
    result list alone, logs one error and clears the flag. *)
Lemma resume_fails (k : nat) (sched : list nat) (w : World) (b : Batch)
      (i0 : nat) (f0 : File) :
  inflight w !! k = Some b ->
  NoDup sched ->
  (forall i, i ∈ sched -> (i < length (batchFiles b))%nat) ->
  i0 ∈ sched ->
  batchFiles b !! i0 = Some f0 ->
  (forall st0, exists e st1, compressFile f0 (batchValue b) st0 = (Rejected e, st1)) ->
  let w' := handleCompress_resume compressFile k sched w in
  compressedUrls w' = compressedUrls w
  /\ (exists e, console w' = console w ++ [(errorMessage, e)])
  /\ isCompressing w' = false
  /\ selectedFiles w' = selectedFiles w
  /\ inflight w' = delete k (inflight w).
Proof.
  intros Hb Hnd Hlt Hin Hf0 Hrej w'.
  destruct (settleAll_rejects compressFile b sched i0 f0 Hf0 Hrej []
              (newPromiseAll (length (batchFiles b))) (objectUrls w))
    as [e He]; try done.
  { cbn. lia. }
  { intros rs. cbn. destruct (length (batchFiles b)) eqn:Hn; [|done].
    specialize (Hlt i0 Hin). lia. }
  destruct (resume_cases compressFile k sched w)
    as [Heq|(b' & st & Hb' & Hsel & _ & _ & _ & Hinf & _ & Hflag & Hout)].
  - exfalso. revert Heq. unfold handleCompress_resume. rewrite Hb.
    destruct (settleAll compressFile b sched _ (objectUrls w)) as [pa st].
    cbn in He. rewrite He. intros Heq.
    apply (f_equal inflight) in Heq. cbn in Heq.
    apply (f_equal length) in Heq. rewrite length_delete in Heq by eauto.
    apply lookup_lt_Some in Hb. lia.
  - rewrite Hb in Hb'. injection Hb' as <-.
    destruct Hout as [(rs & Hst & _)|(e' & Hst & Hres & Hcon)];
      [rewrite He in Hst; discriminate|].
    repeat split; try done. by exists e'.
Qed.
End WholeBatches.

(** C6, as the code has it.  Along every sequence of events in which the
    selection is not replaced while a batch is in flight, the result list on
    display is empty or exactly as long as the list of selected files, and
    the result under file [i] was produced from file [i].  Whatever the
    state, the continuation of a batch leaves the result list as it was or
    replaces it by one result per file of the batch, in the order of the
    files; it does the latter for every order in which the callbacks end
    when all of them fulfil. *)
Theorem results_follow_the_selection
    (compressFile : File -> Z -> M Outcome) (v0 : Z) (evs : list Event) :
  quiet compressFile (initialWorld v0) evs = true ->
  let w := run compressFile (initialWorld v0) evs in
  (compressedUrls w = [] \/ length (compressedUrls w) = length (selectedFiles w))
  /\ (forall i r, shownResult w i = Some r ->
        exists f v, selectedFiles w !! i = Some f /\ producedBy compressFile f v r)
  /\ (forall k sched b, inflight w !! k = Some b ->
        let w' := handleCompress_resume compressFile k sched w in
        compressedUrls w' = compressedUrls w
        \/ alignedWith compressFile (batchFiles b) (batchValue b) (compressedUrls w'))
  /\ (forall k sched b, inflight w !! k = Some b ->
        sched ≡ₚ seq 0 (length (batchFiles b)) ->
        (forall i f st0, batchFiles b !! i = Some f ->
           exists r st1, compressFile f (batchValue b) st0 = (Fulfilled r, st1)) ->
        let w' := handleCompress_resume compressFile k sched w in
        alignedWith compressFile (batchFiles b) (batchValue b) (compressedUrls w')).
Proof.
  intros Hquiet w.
  destruct (run_keeps_display compressFile evs (initialWorld v0) Hquiet)
    as [[Hlen Hal] _].
  { split.
    - split; [by left|]. intros i r Hi. by destruct i.
    - constructor. }
  split; [exact Hlen|]. split; [exact Hal|]. split.
  - intros k sched b Hb. by apply resume_all_or_nothing.
  - intros k sched b Hb Hperm Hall. by apply resume_publishes.
Qed.

(** A rejecting callback.  When a callback of the batch rejects, whatever
    the other callbacks do and in whatever order they end, the continuation
    leaves the result list as it was, logs one error and sets
    [isCompressing] back to false; and whenever the aggregate promise
    settles, by success or by failure, [isCompressing] is false afterwards,
    so that the next click on the button runs [handleCompress] again. *)
Lemma failed_batch_surfaces_nothing
    (compressFile : File -> Z -> M Outcome) (w : World) (k : nat) (b : Batch)
    (sched : list nat) (i0 : nat) (f0 : File) :
  inflight w !! k = Some b ->
  NoDup sched ->
  (forall i, i ∈ sched -> (i < length (batchFiles b))%nat) ->
  i0 ∈ sched ->
  batchFiles b !! i0 = Some f0 ->
  (forall st0, exists e st1, compressFile f0 (batchValue b) st0 = (Rejected e, st1)) ->
  let w' := handleCompress_resume compressFile k sched w in
  compressedUrls w' = compressedUrls w
  /\ (exists e, console w' = console w ++ [(errorMessage, e)])
  /\ isCompressing w' = false
  /\ step compressFile w' EvCompressClick = handleCompress w'
  /\ (forall sched',
        let w'' := handleCompress_resume compressFile k sched' w in
        w'' = w \/ isCompressing w'' = false).
Proof.
  intros Hb Hnd Hlt Hin Hf0 Hrej w'.
  destruct (resume_fails compressFile k sched w b i0 f0 Hb Hnd Hlt Hin Hf0 Hrej)
    as (Hres & Hcon & Hflag & _ & _).
  split; [exact Hres|]. split; [exact Hcon|]. split; [exact Hflag|]. split.
  - change (step compressFile w' EvCompressClick)
      with (if isCompressing w' then w' else handleCompress w').
    unfold w'. by rewrite Hflag.
  - intros sched' w''.
    destruct (resume_cases compressFile k sched' w)
      as [Heq|(b' & st & _ & _ & _ & _ & _ & _ & _ & Hflag' & _)]; [by left|by right].
Qed.

(** ** Examples of batches *)

(** C6, as stated, fails when files are selected while a batch is in
    flight: the batch started on [a.png] and [b.png] publishes its two
    results after [c.jpg] has become the selection, so that the result list
    is neither empty nor as long as the selection, and the result of
    [a.png] is shown under [c.jpg]. *)
Lemma stale_results_after_reselection :
  let w := run (Part000.compressFile (decodesTo (640, 480)) (recode (take 1)))
               (initialWorld 10)
               [EvFileSelect [pngA; pngB]; EvCompressClick;
                EvFileSelect [jpgC]; EvSettle 0 [1; 0]%nat] in
  selectedFiles w = [jpgC]
  /\ compressedUrls w <> []
  /\ length (compressedUrls w) <> length (selectedFiles w)
  /\ originalName <$> shownResult w 0 = Some "a.png".
Proof.
  vm_compute. repeat split; discriminate.
Qed.

(** The same in [src/App.js]. *)
Example stale_results_in_App_js :
  let w := run (AppJs.compressFile (recode (take 1))) (initialWorld 50)
               [EvFileSelect [pngA; pngB]; EvCompressClick;
                EvFileSelect [jpgC]; EvSettle 0 [0; 1]%nat] in
  selectedFiles w = [jpgC]
  /\ (originalName <$> compressedUrls w) = ["a.png"; "b.png"].
Proof. vm_compute. split; reflexivity. Qed.

Lemma results_follow_the_selection_witness :
  let w := run (Part000.compressFile (decodesTo (640, 480)) (recode (take 1)))
               (initialWorld 10)
               [EvFileSelect [pngA; pngB]; EvCompressClick; EvSettle 0 [1; 0]%nat] in
  compressedUrls w = [] \/ length (compressedUrls w) = length (selectedFiles w).
Proof.
  intros w.
  assert (Hquiet : quiet (Part000.compressFile (decodesTo (640, 480)) (recode (take 1)))
                     (initialWorld 10)
                     [EvFileSelect [pngA; pngB]; EvCompressClick; EvSettle 0 [1; 0]%nat]
                   = true) by (vm_compute; reflexivity).
  pose proof (results_follow_the_selection
                (Part000.compressFile (decodesTo (640, 480)) (recode (take 1))) 10
                [EvFileSelect [pngA; pngB]; EvCompressClick; EvSettle 0 [1; 0]%nat]
                Hquiet) as Hthm.
  cbv zeta in Hthm. fold w in Hthm. destruct Hthm as [Hlen _]. exact Hlen.
Defined.

Example results_in_input_order :
  let w := run (Part000.compressFile (decodesTo (640, 480)) (recode (take 1)))
               (initialWorld 10)
               [EvFileSelect [pngA; pngB]; EvCompressClick; EvSettle 0 [1; 0]%nat] in
  originalName <$> compressedUrls w = ["a.png"; "b.png"]
  /\ isCompressing w = false.
Proof. vm_compute. split; reflexivity. Qed.

Example failed_batch_of_three :
  let compress := Part000.compressFile (decodesTo (640, 480)) strictEncoder in
  let w := run compress (initialWorld 10)
               [EvFileSelect [pngA; textD; pngB]; EvCompressClick] in
  let w' := handleCompress_resume compress 0 [2; 1; 0]%nat w in
  compressedUrls w' = compressedUrls w
  /\ (exists e, console w' = console w ++ [(errorMessage, e)])
  /\ isCompressing w' = false.
Proof.
  intros compress w w'.
  assert (Hb : inflight w !! 0%nat = Some (mkBatch [pngA; textD; pngB] 10))
    by (vm_compute; reflexivity).
  assert (Hnd : NoDup [2; 1; 0]%nat) by (apply (bool_decide_unpack _); vm_compute; exact I).
  assert (Hlt : forall i, i ∈ [2; 1; 0]%nat ->
            (i < length (batchFiles (mkBatch [pngA; textD; pngB] 10)))%nat).
  { intros i Hi. cbn.
    apply elem_of_cons in Hi as [->|Hi]; [lia|].
    apply elem_of_cons in Hi as [->|Hi]; [lia|].
    apply elem_of_cons in Hi as [->|Hi]; [lia|].
    by apply elem_of_nil in Hi. }
  assert (Hin : 1%nat ∈ [2; 1; 0]%nat)
    by apply list_elem_of_further, list_elem_of_here.
  assert (Hrej : forall st0, exists e st1,
            compress textD (batchValue (mkBatch [pngA; textD; pngB] 10)) st0
            = (Rejected e, st1)).
  { intros st0. eexists _, _.
    apply (compressFile_rejected (decodesTo (640, 480)) strictEncoder textD
             "not an image" 10 (640, 480) st0); reflexivity. }
  pose proof (failed_batch_surfaces_nothing compress w 0
                (mkBatch [pngA; textD; pngB] 10) [2; 1; 0]%nat 1 textD
                Hb Hnd Hlt Hin eq_refl Hrej) as Hthm.
  cbv zeta in Hthm. fold w' in Hthm.
  destruct Hthm as (Hres & Hcon & Hflag & _).
  repeat split; assumption.
Qed.

(** ** A callback that never ends *)

Section BlockedBatch.
Variable compressFile : File -> Z -> M Outcome.
Variable b : Batch.

Lemma resolveWith_empty_slot (vs : list (option Result)) (p : nat) :
  vs !! p = Some None -> resolveWith vs = StillPending.
Proof.
  intros Hp. unfold resolveWith.
  destruct (mapM id vs) as [rs|] eqn:Hmap; [|reflexivity].
  apply mapM_Some in Hmap.
  destruct (Forall2_lookup_l _ _ _ _ _ Hmap Hp) as (r & _ & Hr). discriminate.
Qed.

(** When the callback of file [p] never ends and no callback rejects, the
    aggregate promise stays pending, whatever the other callbacks do and in
    whatever order. *)
Lemma settleAll_stays_pending (p : nat) (fp : File) (sched : list nat) :
  batchFiles b !! p = Some fp ->
  (forall st0, exists st1, compressFile fp (batchValue b) st0 = (Pending, st1)) ->
  (forall f st0 e st1, compressFile f (batchValue b) st0 <> (Rejected e, st1)) ->
  forall (pa : PromiseAll) (st : UrlStore),
    waitingFor p pa ->
    waitingFor p (settleAll compressFile b sched pa st).1.
Proof.
  intros Hfp Hpending Hnoreject.
  induction sched as [|i rest IH]; intros pa st [Hslot Hstate]; [done|].
  rewrite settleAll_cons. destruct (batchFiles b !! i) as [f|] eqn:Hf; [|by apply IH].
  apply IH.
  destruct (compressFile f (batchValue b) st) as [[r|e|] st1] eqn:Hrun; cbn.
  - assert (Hip : i <> p).
    { intros ->. rewrite Hfp in Hf. injection Hf as <-.
      destruct (Hpending st) as [st2 Hrun']. congruence. }
    assert (Hslot' : <[i := Some r]> (values pa) !! p = Some None).
    { by rewrite list_lookup_insert_ne. }
    split; cbn; [exact Hslot'|]. rewrite Hstate.
    destruct (pred (remainingElementsCount pa)); [|reflexivity].
    by apply (resolveWith_empty_slot _ p).
  - by destruct (Hnoreject f st e st1).
  - by split.
Qed.

Lemma resume_blocked (k p : nat) (fp : File) (sched : list nat) (w : World) :
  inflight w !! k = Some b ->
  batchFiles b !! p = Some fp ->
  (forall st0, exists st1, compressFile fp (batchValue b) st0 = (Pending, st1)) ->
  (forall f st0 e st1, compressFile f (batchValue b) st0 <> (Rejected e, st1)) ->
  handleCompress_resume compressFile k sched w = w.
Proof.
  intros Hb Hfp Hpending Hnoreject. unfold handleCompress_resume. rewrite Hb.
  pose proof (settleAll_stays_pending p fp sched Hfp Hpending Hnoreject
                (newPromiseAll (length (batchFiles b))) (objectUrls w)) as Hwait.
  destruct (settleAll compressFile b sched _ (objectUrls w)) as [pa st].
  destruct Hwait as [_ Hstate]; [|cbn in Hstate; by rewrite Hstate].
  assert (Hp : (p < length (batchFiles b))%nat) by (by apply lookup_lt_Some in Hfp).
  split; cbn.
  - apply lookup_replicate. by split.
  - destruct (length (batchFiles b)); [lia|reflexivity].
Qed.

End BlockedBatch.

Lemma recode_returns (g : list Byte.byte -> list Byte.byte) (f : File) (o : Options) :
  exists c, recode g f o = inr c.
Proof. unfold recode. destruct (skipCompression o) as [[|]|]; eauto. Qed.

Lemma recode_never_rejects (loadImage : File -> option (Z * Z))
      (g : list Byte.byte -> list Byte.byte) (f : File) (v : Z)
      (st0 st1 : UrlStore) (e : Error) :
  Part000.compressFile loadImage (recode g) f v st0 <> (Rejected e, st1).
Proof.
  unfold Part000.compressFile, bind, createObjectURL, revokeObjectURL, ret.
  destruct (loadImage f) as [img|]; [|discriminate].
  destruct (recode_returns g f (Part000.options f v img)) as [c ->].
  discriminate.
Qed.

(** C7, at a batch with a file that passes for an image and cannot be
    decoded: [img.onload] never fires and the callback sets no [onerror], so
    its promise never settles and neither does [Promise.all].  Whatever the
    other callbacks do, the continuation never runs: no error is logged and
    [isCompressing] stays true, which keeps the compress button disabled. *)
Theorem undecodable_image_blocks_the_batch :
  let compress := Part000.compressFile decodesByMagic (recode (take 1)) in
  let w := run compress (initialWorld 10)
               [EvFileSelect [pngA; brokenJpg]; EvCompressClick] in
  isCompressing w = true
  /\ console w = []
  /\ forall sched,
       let w' := handleCompress_resume compress 0 sched w in
       w' = w
       /\ step compress w' EvCompressClick = w'.
Proof.
  intros compress w.
  split; [vm_compute; reflexivity|]. split; [vm_compute; reflexivity|].
  intros sched w'.
  assert (Hblocked : w' = w).
  { apply (resume_blocked compress (mkBatch [pngA; brokenJpg] 10) 0 1 brokenJpg).
    - vm_compute. reflexivity.
    - reflexivity.
    - intros st0. eexists.
      apply (compressFile_pending decodesByMagic (recode (take 1))).
      reflexivity.
    - intros f st0 e st1. apply recode_never_rejects. }
  split; [exact Hblocked|]. rewrite Hblocked. vm_compute. reflexivity.
Qed.

(** * Further properties of the code *)

(** ** Dropping files *)

Lemma filter_isImage_all (dropped : list File) :
  Forall (fun f => isImage f = true) (List.filter isImage dropped).
Proof.
  apply Forall_forall. intros f Hf. apply list_elem_of_In in Hf.
  by apply List.filter_In in Hf as [_ Hf].
Qed.

Lemma filter_isImage_none (dropped : list File) :
  Forall (fun f => isImage f = false) dropped -> List.filter isImage dropped = [].
Proof.
  induction dropped as [|f dropped IH]; intros Hnone; [done|].
  apply Forall_cons in Hnone as [Hf Hnone]. cbn. rewrite Hf. by apply IH.
Qed.

Lemma handleDrop_as_select (dropped : list File) (w : World) :
  handleDrop dropped w = handleFileSelect (List.filter isImage dropped) w.
Proof. unfold handleDrop. cbv zeta. by destruct (List.filter isImage dropped). Qed.

(** X1.  A drop selects exactly the dropped files whose type starts with
    [image/], in the order of the drop, as [handleFileSelect] would; when
    there is none the page stays as it is.  After a drop that changed the
    page every selected file has an image type. *)
Theorem drop_selects_the_images (dropped : list File) (w : World) :
  handleDrop dropped w = handleFileSelect (List.filter isImage dropped) w
  /\ (Forall (fun f => isImage f = false) dropped -> handleDrop dropped w = w)
  /\ (handleDrop dropped w <> w ->
      selectedFiles (handleDrop dropped w) = List.filter isImage dropped
      /\ Forall (fun f => isImage f = true) (selectedFiles (handleDrop dropped w))).
Proof.
  pose proof (handleDrop_as_select dropped w) as Heq.
  split; [exact Heq|]. split.
  - intros Hnone. rewrite Heq.
    by rewrite (filter_isImage_none dropped Hnone).
  - intros Hchanged. rewrite Heq in *.
    destruct (handleFileSelect_fields (List.filter isImage dropped) w)
      as (_ & Hnil & Hcons).
    destruct (List.filter isImage dropped) as [|f files] eqn:Hfilter.
    { by destruct Hchanged. }
    destruct (Hcons ltac:(done)) as [Hsel _]. rewrite Hsel. split; [done|].
    rewrite <- Hfilter. apply filter_isImage_all.
Qed.

Lemma drop_selects_the_images_witness :
  handleDrop [textD] (initialWorld 10) = initialWorld 10
  /\ selectedFiles (handleDrop [textD; pngA; textD; jpgC] (initialWorld 10))
     = [pngA; jpgC].
Proof.
  destruct (drop_selects_the_images [textD] (initialWorld 10)) as (_ & Hnone & _).
  destruct (drop_selects_the_images [textD; pngA; textD; jpgC] (initialWorld 10))
    as (_ & _ & Hsome).
  split.
  - apply Hnone. repeat constructor.
  - apply Hsome. vm_compute. discriminate.
Defined.

(** ** The running flag *)

Section Lock.
Variable compressFile : File -> Z -> M Outcome.

Lemma handleFileSelect_lock (files : list File) (w : World) :
  inflight (handleFileSelect files w) = inflight w
  /\ isCompressing (handleFileSelect files w) = isCompressing w.
Proof.
  unfold handleFileSelect. destruct files as [|f files]; [done|].
  by destruct (mapCreateObjectURL (f :: files) (objectUrls w)).
Qed.

Lemma step_keeps_lock (w : World) (ev : Event) :
  lockOk w -> lockOk (step compressFile w ev).
Proof.
  intros Hw. pose proof Hw as (Hlen & Hflag & Hne).
  destruct ev as [files|dropped|v|v| |k sched]; cbn [step].
  - destruct (handleFileSelect_lock files w) as [Hi Hc].
    unfold lockOk. by rewrite Hi, Hc.
  - rewrite handleDrop_as_select.
    destruct (handleFileSelect_lock (List.filter isImage dropped) w) as [Hi Hc].
    unfold lockOk. by rewrite Hi, Hc.
  - exact Hw.
  - exact Hw.
  - destruct (isCompressing w) eqn:Hc; [exact Hw|]. unfold handleCompress.
    destruct (selectedFiles w) as [|f files] eqn:Hsel; [exact Hw|].
    assert (Hnone : inflight w = []).
    { destruct (inflight w) as [|b bs]; [done|].
      assert (false = true) by (by apply Hflag). discriminate. }
    unfold lockOk. cbn. rewrite Hnone. cbn. split; [lia|]. split; [done|].
    constructor; [done|constructor].
  - destruct (resume_cases compressFile k sched w)
      as [->|(b & st & Hb & _ & _ & _ & _ & Hinf & _ & Hc & _)]; [exact Hw|].
    assert (Hgone : delete k (inflight w) = []).
    { destruct (inflight w) as [|b0 [|b1 bs]]; [done| |cbn in Hlen; lia].
      destruct k; [done|]. by destruct k. }
    unfold lockOk. rewrite Hinf, Hc, Hgone. split; [cbn; lia|]. split; [|done].
    split; [discriminate|done].
Qed.

Lemma run_keeps_lock (evs : list Event) :
  forall w, lockOk w -> lockOk (run compressFile w evs).
Proof.
  induction evs as [|ev rest IH]; intros w Hw; [done|].
  cbn. by apply IH, step_keeps_lock.
Qed.
End Lock.

(** X2.  Whatever happens to the page, at most one batch is in flight,
    [isCompressing] is true exactly while one is, no batch is started on an
    empty selection, and a click on the compress button changes nothing
    while a batch is in flight or while nothing is selected. *)
Theorem one_batch_at_a_time
    (compressFile : File -> Z -> M Outcome) (v0 : Z) (evs : list Event) :
  let w := run compressFile (initialWorld v0) evs in
  (length (inflight w) <= 1)%nat
  /\ (isCompressing w = true <-> inflight w <> [])
  /\ Forall (fun b => batchFiles b <> []) (inflight w)
  /\ (inflight w <> [] \/ selectedFiles w = [] ->
      step compressFile w EvCompressClick = w).
Proof.
  intros w.
  assert (Hlock : lockOk w).
  { apply run_keeps_lock. split; [cbn; lia|]. split; [|constructor].
    cbn. split; [discriminate|done]. }
  destruct Hlock as (Hlen & Hflag & Hne).
  split; [exact Hlen|]. split; [exact Hflag|]. split; [exact Hne|].
  intros [Hbusy|Hnone]; cbn [step].
  - apply Hflag in Hbusy. by rewrite Hbusy.
  - destruct (isCompressing w); [done|]. unfold handleCompress. by rewrite Hnone.
Qed.

Lemma one_batch_at_a_time_witness :
  let compress := AppJs.compressFile (recode (take 1)) in
  let w := run compress (initialWorld 50)
               [EvFileSelect [pngA]; EvCompressClick; EvCompressClick] in
  step compress w EvCompressClick = w.
Proof.
  intros compress w.
  pose proof (one_batch_at_a_time compress 50
                [EvFileSelect [pngA]; EvCompressClick; EvCompressClick]) as Hthm.
  cbv zeta in Hthm. fold w in Hthm.
  destruct Hthm as (_ & _ & _ & Hclick).
  apply Hclick. left. vm_compute. discriminate.
Defined.

(** ** The strength across events *)

Lemma step_strength (compressFile : File -> Z -> M Outcome) (w : World) (ev : Event) :
  (compressionValue (step compressFile w ev), selectedChip (step compressFile w ev))
  = strengthStep (compressionValue w, selectedChip w) ev.
Proof.
  destruct ev as [files|dropped|v|v| |k sched]; cbn [step strengthStep].
  - unfold handleFileSelect. destruct files as [|f files]; [done|].
    by destruct (mapCreateObjectURL (f :: files) (objectUrls w)).
  - unfold handleDrop. cbv zeta.
    destruct (List.filter isImage dropped) as [|f files]; [done|].
    unfold handleFileSelect.
    by destruct (mapCreateObjectURL (f :: files) (objectUrls w)).
  - done.
  - done.
  - destruct (isCompressing w); [done|]. unfold handleCompress.
    by destruct (selectedFiles w).
  - destruct (resume_cases compressFile k sched w)
      as [->|(b & st & _ & _ & _ & Hv & Hchip & _)]; [done|].
    by rewrite Hv, Hchip.
Qed.

(** X3.  The strength and the active chip are those of the last click on a
    chip or move of the slider: selecting or dropping files, starting a
    batch and the end of a batch leave both as they are. *)
Theorem strength_follows_the_controls
    (compressFile : File -> Z -> M Outcome) (evs : list Event) (w : World) :
  (compressionValue (run compressFile w evs), selectedChip (run compressFile w evs))
  = fold_left strengthStep evs (compressionValue w, selectedChip w).
Proof.
  revert w. induction evs as [|ev rest IH]; intros w; [done|].
  change (run compressFile w (ev :: rest))
    with (run compressFile (step compressFile w ev) rest).
  rewrite IH, step_strength. reflexivity.
Qed.

(** ** The object URLs of the page *)

Lemma storeOk_empty : storeOk emptyStore.
Proof. intros u [g Hg]. simpl in Hg. by rewrite lookup_empty in Hg. Qed.

Lemma storeOk_insert (st : UrlStore) (n : N) (g : File) :
  storeOk st -> (nextUrl st <= n)%N ->
  storeOk (mkUrlStore (N.succ n) (<[n := g]> (blobs st))).
Proof.
  intros Hok Hn u Hu. cbn [nextUrl blobs] in *.
  destruct (decide (u = n)) as [->|Hne]; [lia|].
  rewrite lookup_insert_ne in Hu by done. specialize (Hok u Hu). lia.
Qed.

Lemma storeOk_next (st : UrlStore) (n : N) :
  storeOk st -> (nextUrl st <= n)%N -> storeOk (mkUrlStore n (blobs st)).
Proof.
  intros Hok Hn u Hu. cbn [nextUrl blobs] in *. specialize (Hok u Hu). lia.
Qed.

Lemma createObjectURL_keeps (f : File) (st : UrlStore) :
  storeOk st ->
  storeOk (createObjectURL f st).2
  /\ (forall u, (u < nextUrl st)%N ->
        blobs (createObjectURL f st).2 !! u = blobs st !! u)
  /\ blobs (createObjectURL f st).2 !! nextUrl st = Some f.
Proof.
  intros Hok. unfold createObjectURL. cbn [fst snd]. split; [|split].
  - by apply storeOk_insert.
  - intros u Hu. cbn [blobs]. apply lookup_insert_ne. lia.
  - cbn [blobs]. apply lookup_insert_eq.
Qed.

Lemma storeOk_fresh (st : UrlStore) : storeOk st -> blobs st !! nextUrl st = None.
Proof.
  intros Hok. destruct (blobs st !! nextUrl st) as [g|] eqn:Hg; [|done].
  assert (nextUrl st < nextUrl st)%N by (apply Hok; eauto). lia.
Qed.

Lemma mapCreateObjectURL_keeps (files : list File) :
  forall st, storeOk st -> storeOk (mapCreateObjectURL files st).2.
Proof.
  induction files as [|f files IH]; intros st Hok; [done|].
  cbn [mapCreateObjectURL]. unfold bind.
  destruct (createObjectURL_keeps f st Hok) as (Hok1 & _ & _).
  destruct (createObjectURL f st) as [u st1]. cbn [snd] in Hok1.
  specialize (IH st1 Hok1).
  by destruct (mapCreateObjectURL files st1) as [us st2].
Qed.

(** The temporary URL of the callback is released when the image has
    loaded, so the callback leaves one more live URL, the result's. *)
Lemma Part000_store_after (loadImage : File -> option (Z * Z))
      (imageCompression : File -> Options -> Error + File)
      (f compressed : File) (v : Z) (img : Z * Z) (st : UrlStore) :
  storeOk st ->
  loadImage f = Some img ->
  imageCompression f (Part000.options f v img) = inr compressed ->
  blobs (Part000.compressFile loadImage imageCompression f v st).2
  = <[N.succ (nextUrl st) := Part000.keepSmaller f compressed]> (blobs st).
Proof.
  intros Hok Himg Henc.
  rewrite (compressFile_fulfilled _ _ f compressed v img st Himg Henc).
  cbn [snd blobs].
  rewrite delete_insert_id by (by apply storeOk_fresh). reflexivity.
Qed.

Lemma Part000_keepsUrls (loadImage : File -> option (Z * Z))
      (imageCompression : File -> Options -> Error + File) :
  keepsUrls (Part000.compressFile loadImage imageCompression).
Proof.
  intros f v st Hok.
  destruct (loadImage f) as [img|] eqn:Himg.
  - destruct (imageCompression f (Part000.options f v img)) as [e|c] eqn:Henc.
    + rewrite (compressFile_rejected _ _ f e v img st Himg Henc). cbn [fst snd].
      rewrite delete_insert_id by (by apply storeOk_fresh). cbn [nextUrl blobs].
      split; [apply storeOk_next; [done|lia]|].
      split; [lia|]. split; [done|discriminate].
    + pose proof (Part000_store_after loadImage imageCompression f c v img st
                    Hok Himg Henc) as Hblobs.
      rewrite (compressFile_fulfilled _ _ f c v img st Himg Henc) in *.
      cbn [fst snd nextUrl blobs] in *. rewrite Hblobs.
      split; [apply storeOk_insert; [done|lia]|]. split; [lia|]. split.
      * intros u Hu. apply lookup_insert_ne. lia.
      * intros r [= <-]. cbn [url file]. apply lookup_insert_eq.
  - rewrite (compressFile_pending _ imageCompression f v st Himg).
    cbn [fst snd nextUrl blobs].
    split; [apply storeOk_insert; [done|lia]|]. split; [lia|]. split.
    + intros u Hu. apply lookup_insert_ne. lia.
    + discriminate.
Qed.

Lemma AppJs_keepsUrls (imageCompression : File -> Options -> Error + File) :
  keepsUrls (AppJs.compressFile imageCompression).
Proof.
  intros f v st Hok. unfold AppJs.compressFile.
  destruct (imageCompression f (AppJs.options f v)) as [e|c].
  - unfold ret. cbn [fst snd]. split; [done|]. split; [lia|].
    split; [done|discriminate].
  - unfold bind, createObjectURL, ret. cbn [fst snd nextUrl blobs].
    split; [apply storeOk_insert; [done|lia]|]. split; [lia|]. split.
    + intros u Hu. apply lookup_insert_ne. lia.
    + intros r [= <-]. cbn [url file]. apply lookup_insert_eq.
Qed.

Section UrlsOfBatches.
Variable compressFile : File -> Z -> M Outcome.
Hypothesis Hkeeps : keepsUrls compressFile.

Lemma settleAll_keeps_urls (b : Batch) (sched : list nat) :
  forall (pa : PromiseAll) (st : UrlStore),
    storeOk st ->
    (forall i r, values pa !! i = Some (Some r) ->
       blobs st !! url r = Some (file r)) ->
    (forall rs, promiseState pa = ResolvedWith rs ->
       forall i r, rs !! i = Some r -> blobs st !! url r = Some (file r)) ->
    storeOk (settleAll compressFile b sched pa st).2
    /\ (forall u, (u < nextUrl st)%N ->
          blobs (settleAll compressFile b sched pa st).2 !! u = blobs st !! u)
    /\ (forall rs,
          promiseState (settleAll compressFile b sched pa st).1 = ResolvedWith rs ->
          forall i r, rs !! i = Some r ->
            blobs (settleAll compressFile b sched pa st).2 !! url r = Some (file r)).
Proof.
  induction sched as [|i rest IH]; intros pa st Hok Hslots Hres.
  - simpl. split; [done|]. split; [done|exact Hres].
  - rewrite settleAll_cons. destruct (batchFiles b !! i) as [f|]; [|by apply IH].
    destruct (Hkeeps f (batchValue b) st Hok) as (Hok1 & Hnext & Hold & Hnew).
    assert (Hlive : forall r, blobs st !! url r = Some (file r) ->
              blobs (compressFile f (batchValue b) st).2 !! url r = Some (file r)).
    { intros r Hr. rewrite Hold; [done|]. apply Hok. by eexists. }
    destruct (compressFile f (batchValue b) st) as [o st1] eqn:Hrun.
    cbn [fst snd] in *.
    assert (Hslots1 : forall j r, values (notify i o pa) !! j = Some (Some r) ->
              blobs st1 !! url r = Some (file r)).
    { intros j r. destruct o as [r0|e|]; simpl.
      - destruct (decide (i = j)) as [<-|Hij].
        + destruct (decide (i < length (values pa))%nat) as [Hlt|Hge].
          * rewrite list_lookup_insert_eq by done. intros [= <-]. by apply Hnew.
          * rewrite list_insert_ge by lia. intros Hj. eapply Hlive, Hslots, Hj.
        + rewrite list_lookup_insert_ne by done. intros Hj.
          eapply Hlive, Hslots, Hj.
      - intros Hj. eapply Hlive, Hslots, Hj.
      - intros Hj. eapply Hlive, Hslots, Hj. }
    assert (Hres1 : forall rs, promiseState (notify i o pa) = ResolvedWith rs ->
              forall j r, rs !! j = Some r -> blobs st1 !! url r = Some (file r)).
    { intros rs Hst j r Hj.
      assert (Hcase : promiseState pa = ResolvedWith rs
                      \/ resolveWith (values (notify i o pa)) = ResolvedWith rs).
      { destruct o as [r0|e|]; cbn in Hst |- *.
        - destruct (promiseState pa); [|by left|discriminate].
          destruct (pred (remainingElementsCount pa)); [by right|discriminate].
        - destruct (promiseState pa); [discriminate|by left|discriminate].
        - by left. }
      destruct Hcase as [Hold'|Hnow].
      - by eapply Hlive, Hres.
      - unfold resolveWith in Hnow.
        destruct (mapM id (values (notify i o pa))) as [rs'|] eqn:Hmap; [|discriminate].
        injection Hnow as ->. apply mapM_Some in Hmap.
        destruct (Forall2_lookup_r _ _ _ _ _ Hmap Hj) as (slot & Hslot & Hid).
        simpl in Hid. subst slot. by eapply Hslots1. }
    destruct (IH (notify i o pa) st1 Hok1 Hslots1 Hres1) as (Hok2 & Hold2 & Hres2).
    split; [exact Hok2|]. split; [|exact Hres2].
    intros u Hu. rewrite Hold2 by lia. by apply Hold.
Qed.

Lemma step_keeps_urls (w : World) (ev : Event) :
  urlsLive w ->
  urlsLive (step compressFile w ev)
  /\ (forall u, (u < nextUrl (objectUrls w))%N ->
        blobs (objectUrls (step compressFile w ev)) !! u = blobs (objectUrls w) !! u).
Proof.
  intros Hw. pose proof Hw as (Hok & Hlen & Hnd & Hprev & Hres).
  assert (Hselect : forall files,
            urlsLive (handleFileSelect files w)
            /\ (forall u, (u < nextUrl (objectUrls w))%N ->
                  blobs (objectUrls (handleFileSelect files w)) !! u
                  = blobs (objectUrls w) !! u)).
  { intros files. unfold handleFileSelect.
    destruct files as [|f0 files0] eqn:Hfiles; [done|]. rewrite <- Hfiles.
    pose proof (mapCreateObjectURL_keeps files (objectUrls w) Hok) as Hok'.
    destruct (mapCreateObjectURL files (objectUrls w)) as [urls st] eqn:Hrun.
    apply mapCreateObjectURL_spec in Hrun as (Hnext & Hurls & Hold & Hnew).
    split; [|exact Hold]. unfold urlsLive. simpl.
    split; [exact Hok'|]. split; [by rewrite Hurls, length_fmap, length_seq|].
    split; [|split].
    - rewrite Hurls. apply NoDup_fmap_2; [|apply NoDup_seq]. intros i j Hij. lia.
    - intros i g Hi. exists (nextUrl (objectUrls w) + N.of_nat i)%N. split.
      + rewrite Hurls, list_lookup_fmap, lookup_seq_lt; [done|].
        by apply lookup_lt_Some in Hi.
      + by apply Hnew.
    - intros i r Hi. by rewrite lookup_nil in Hi. }
  destruct ev as [files|dropped|v|v| |k sched]; cbn [step].
  - apply Hselect.
  - rewrite handleDrop_as_select. apply Hselect.
  - by split.
  - by split.
  - destruct (isCompressing w); [by split|]. unfold handleCompress.
    destruct (selectedFiles w) eqn:Hsel; [by split|]. rewrite <- Hsel in *.
    by split.
  - unfold handleCompress_resume.
    destruct (inflight w !! k) as [b|]; [|by split].
    destruct (settleAll_keeps_urls b sched (newPromiseAll (length (batchFiles b)))
                (objectUrls w) Hok) as (Hok' & Hold & Hnew).
    { intros i r Hi. simpl in Hi. apply lookup_replicate in Hi as [? _]. discriminate. }
    { intros rs. simpl. destruct (length (batchFiles b)); [|discriminate].
      intros [= <-] i r Hi. by rewrite lookup_nil in Hi. }
    destruct (settleAll compressFile b sched _ (objectUrls w)) as [pa st].
    cbn [fst snd] in *.
    assert (Hkept : forall u g, blobs (objectUrls w) !! u = Some g ->
              blobs st !! u = Some g).
    { intros u g Hu. rewrite Hold; [done|]. apply Hok. by eexists. }
    destruct (promiseState pa) as [|rs|e] eqn:Hst; [by split| |].
    + split; [|exact Hold]. unfold urlsLive. simpl.
      split; [exact Hok'|]. split; [exact Hlen|]. split; [exact Hnd|]. split.
      * intros i f Hi. destruct (Hprev i f Hi) as (u & Hu & Hlive).
        exists u. split; [exact Hu|]. by apply Hkept.
      * intros i r Hi. by apply (Hnew rs eq_refl i).
    + split; [|exact Hold]. unfold urlsLive. simpl.
      split; [exact Hok'|]. split; [exact Hlen|]. split; [exact Hnd|]. split.
      * intros i f Hi. destruct (Hprev i f Hi) as (u & Hu & Hlive).
        exists u. split; [exact Hu|]. by apply Hkept.
      * intros i r Hi. by apply Hkept, Hres with i.
Qed.

Lemma run_keeps_urls (evs : list Event) :
  forall w, urlsLive w ->
    urlsLive (run compressFile w evs)
    /\ (forall u g, blobs (objectUrls w) !! u = Some g ->
          blobs (objectUrls (run compressFile w evs)) !! u = Some g).
Proof.
  induction evs as [|ev rest IH]; intros w Hw; [by split|].
  destruct (step_keeps_urls w ev Hw) as [Hw1 Hold].
  destruct (IH _ Hw1) as [Hw2 Hkept].
  change (run compressFile w (ev :: rest))
    with (run compressFile (step compressFile w ev) rest).
  split; [exact Hw2|]. intros u g Hu. apply Hkept. rewrite Hold; [done|].
  destruct Hw as (Hok & _). apply Hok. by eexists.
Qed.
End UrlsOfBatches.

Lemma urlsLive_initial (v0 : Z) : urlsLive (initialWorld v0).
Proof.
  split; [apply storeOk_empty|]. split; [done|]. split; [constructor|].
  split; intros i x Hi; simpl in Hi; by rewrite lookup_nil in Hi.
Qed.

(** * Object URLs over the life of the page *)

Lemma urlsLive_cards (w : World) : urlsLive w -> cardsLive w.
Proof.
  intros (Hok & Hlen & Hnd & Hprev & Hres). unfold cardsLive, renderCards.
  destruct (previewUrls w) as [|u0 urls] eqn:Hurls.
  - cbn [isNil]. destruct (selectedFiles w); [|discriminate]. split; [done|].
    intros i card Hi. by rewrite lookup_nil in Hi.
  - cbn [isNil]. rewrite length_imap. split; [done|].
    intros i card Hi. rewrite list_lookup_imap in Hi.
    destruct (selectedFiles w !! i) as [f|] eqn:Hf; [|discriminate].
    cbn in Hi. injection Hi as <-. cbn [cardName cardPreview cardResult].
    split.
    + destruct (Hprev i f Hf) as (u & Hu & Hlive). exists f, u.
      split; [done|]. split; [done|]. by split.
    + intros r Hr. by apply Hres with i.
Qed.

Lemma run_app (compressFile : File -> Z -> M Outcome) (w : World)
      (evs1 evs2 : list Event) :
  run compressFile w (evs1 ++ evs2)
  = run compressFile (run compressFile w evs1) evs2.
Proof. unfold run. apply fold_left_app. Qed.

(** X4. In both variants, whatever the user does and however the batches
    end, every card on the page shows a live preview URL of its own file,
    the previews are pairwise distinct, and every result under a card links
    to a live object URL that holds the result's file. *)
Theorem cards_show_live_urls (loadImage : File -> option (Z * Z))
        (imageCompression : File -> Options -> Error + File)
        (v0 : Z) (evs : list Event) :
  (cardsLive (run (Part000.compressFile loadImage imageCompression)
                (initialWorld v0) evs)
   /\ NoDup (previewUrls (run (Part000.compressFile loadImage imageCompression)
                            (initialWorld v0) evs)))
  /\ (cardsLive (run (AppJs.compressFile imageCompression) (initialWorld v0) evs)
      /\ NoDup (previewUrls (run (AppJs.compressFile imageCompression)
                               (initialWorld v0) evs))).
Proof.
  split.
  - destruct (run_keeps_urls _ (Part000_keepsUrls loadImage imageCompression)
                evs (initialWorld v0) (urlsLive_initial v0)) as [Hlive _].
    split; [by apply urlsLive_cards|]. by destruct Hlive as (_ & _ & Hnd & _).
  - destruct (run_keeps_urls _ (AppJs_keepsUrls imageCompression)
                evs (initialWorld v0) (urlsLive_initial v0)) as [Hlive _].
    split; [by apply urlsLive_cards|]. by destruct Hlive as (_ & _ & Hnd & _).
Qed.



(** X6. The variant with tiers releases the URL it makes to read the image
    dimensions as soon as the image has loaded: after a callback that
    fulfils, the only new live URL is the result's; after one that rejects
    there is none.  When the image never loads the URL is never released. *)
Theorem probe_url_is_released_on_load (loadImage : File -> option (Z * Z))
        (imageCompression : File -> Options -> Error + File)
        (f : File) (v : Z) (st : UrlStore) :
  storeOk st ->
  let after := (Part000.compressFile loadImage imageCompression f v st).2 in
  match loadImage f with
  | Some img =>
      blobs after !! nextUrl st = None
      /\ match imageCompression f (Part000.options f v img) with
         | inr compressed =>
             blobs after
             = <[N.succ (nextUrl st) := Part000.keepSmaller f compressed]> (blobs st)
         | inl _ => blobs after = blobs st
         end
  | None => blobs after = <[nextUrl st := f]> (blobs st)
  end.
Proof.
  intros Hok after. subst after.
  pose proof (storeOk_fresh st Hok) as Hfresh.
  destruct (loadImage f) as [img|] eqn:Himg.
  - destruct (imageCompression f (Part000.options f v img)) as [e|c] eqn:Henc.
    + rewrite (compressFile_rejected _ _ f e v img st Himg Henc).
      cbn [snd blobs]. rewrite delete_insert_id by done. by split.
    + rewrite (Part000_store_after _ _ f c v img st Hok Himg Henc).
      split; [|done]. rewrite lookup_insert_ne by lia. done.
  - by rewrite (compressFile_pending _ imageCompression f v st Himg).
Qed.

Lemma probe_url_is_released_on_load_witness :
  storeOk emptyStore
  /\ blobs (Part000.compressFile decodesByMagic (recode (take 1)) pngA 30
              emptyStore).2 !! 0%N = None
  /\ blobs (Part000.compressFile decodesByMagic (recode (take 1)) pngA 30
              emptyStore).2 !! 1%N = Some pngA.
Proof.
  split; [exact storeOk_empty|].
  pose proof (probe_url_is_released_on_load decodesByMagic (recode (take 1))
                pngA 30 emptyStore storeOk_empty) as H.
  vm_compute in H. destruct H as [Hprobe Hstore].
  split; vm_compute; [exact Hprobe|reflexivity].
Defined.

(** * Batches and the strength *)

Lemma run_strength_only (compressFile : File -> Z -> M Outcome)
      (mids : list Event) :
  forall w, forallb isStrengthEvent mids = true ->
    selectedFiles (run compressFile w mids) = selectedFiles w
    /\ compressedUrls (run compressFile w mids) = compressedUrls w
    /\ inflight (run compressFile w mids) = inflight w
    /\ (compressionValue (run compressFile w mids),
        selectedChip (run compressFile w mids))
       = fold_left strengthStep mids (compressionValue w, selectedChip w).
Proof.
  induction mids as [|ev rest IH]; intros w Hmids; [done|].
  cbn [forallb] in Hmids. apply andb_prop in Hmids as [Hev Hrest].
  change (run compressFile w (ev :: rest))
    with (run compressFile (step compressFile w ev) rest).
  destruct (IH (step compressFile w ev) Hrest) as (Hsel & Hres & Hinf & Hval).
  rewrite Hsel, Hres, Hinf, Hval. cbn [fold_left].
  by destruct ev.
Qed.

(** X7. A batch compresses at the strength that was set when the button was
    clicked.  When the chips or the slider are used while it runs, the page
    shows the new strength, and the results the batch publishes are still,
    one per file, those of the strength of the click; or the batch
    publishes nothing. *)
Theorem batch_uses_the_strength_of_the_click
        (compressFile : File -> Z -> M Outcome) (w : World)
        (mids : list Event) (sched : list nat) :
  isCompressing w = false ->
  inflight w = [] ->
  selectedFiles w <> [] ->
  forallb isStrengthEvent mids = true ->
  let w' := run compressFile w (EvCompressClick :: mids ++ [EvSettle 0 sched]) in
  (compressionValue w', selectedChip w')
  = fold_left strengthStep mids (compressionValue w, selectedChip w)
  /\ (compressedUrls w' = compressedUrls w
      \/ alignedWith compressFile (selectedFiles w) (compressionValue w)
           (compressedUrls w')).
Proof.
  intros Hidle Hnone Hsel Hmids w'. subst w'.
  change (run compressFile w (EvCompressClick :: mids ++ [EvSettle 0 sched]))
    with (run compressFile (step compressFile w EvCompressClick)
            (mids ++ [EvSettle 0 sched])).
  rewrite run_app. cbn [step]. rewrite Hidle.
  set (w1 := handleCompress w).
  assert (Hw1 : selectedFiles w1 = selectedFiles w
                /\ compressedUrls w1 = compressedUrls w
                /\ compressionValue w1 = compressionValue w
                /\ selectedChip w1 = selectedChip w
                /\ inflight w1 = [mkBatch (selectedFiles w) (compressionValue w)]).
  { subst w1. unfold handleCompress.
    destruct (selectedFiles w) as [|f files] eqn:Hfiles; [done|].
    cbn. by rewrite Hnone. }
  destruct Hw1 as (Hsel1 & Hres1 & Hval1 & Hchip1 & Hinf1).
  destruct (run_strength_only compressFile mids w1 Hmids)
    as (Hsel2 & Hres2 & Hinf2 & Hval2).
  set (w2 := run compressFile w1 mids) in *.
  change (run compressFile w2 [EvSettle 0 sched])
    with (handleCompress_resume compressFile 0 sched w2).
  split.
  - destruct (resume_cases compressFile 0 sched w2)
      as [->|(b & st & _ & _ & _ & Hv & Hchip & _)].
    + by rewrite Hval2, Hval1, Hchip1.
    + by rewrite Hv, Hchip, Hval2, Hval1, Hchip1.
  - assert (Hb : inflight w2 !! 0%nat
                 = Some (mkBatch (selectedFiles w) (compressionValue w))).
    { by rewrite Hinf2, Hinf1. }
    pose proof (resume_all_or_nothing compressFile 0 sched w2 _ Hb) as Hcases.
    cbv zeta in Hcases. cbn [batchFiles batchValue] in Hcases.
    destruct Hcases as [Hsame|Haligned]; [left|by right].
    by rewrite Hsame, Hres2, Hres1.
Qed.

Lemma batch_uses_the_strength_of_the_click_witness :
  let w' := run (AppJs.compressFile (recode (take 1)))
              (run (AppJs.compressFile (recode (take 1))) (initialWorld 50)
                 [EvFileSelect [pngA; jpgC]])
              (EvCompressClick
               :: [EvChipClick 90; EvSliderChange 12] ++ [EvSettle 0 [1; 0]%nat]) in
  (compressionValue w', selectedChip w') = (12, None)
  /\ (compressedUrls w' = []
      \/ alignedWith (AppJs.compressFile (recode (take 1))) [pngA; jpgC] 50
           (compressedUrls w')).
Proof.
  exact (batch_uses_the_strength_of_the_click
           (AppJs.compressFile (recode (take 1)))
           (run (AppJs.compressFile (recode (take 1))) (initialWorld 50)
              [EvFileSelect [pngA; jpgC]])
           [EvChipClick 90; EvSliderChange 12] [1; 0]%nat
           eq_refl eq_refl ltac:(discriminate) eq_refl).
Defined.

(** * Batches that settle *)

Section Settling.
Variable compressFile : File -> Z -> M Outcome.

Lemma decided_batch (v : Z) (files : list File) :
  Forall (decided compressFile v) files ->
  (forall i f st0, files !! i = Some f ->
     exists r st1, compressFile f v st0 = (Fulfilled r, st1))
  \/ (exists i0 f0, files !! i0 = Some f0
        /\ forall st0, exists e st1, compressFile f0 v st0 = (Rejected e, st1)).
Proof.
  induction 1 as [|f files [Hful|Hrej] _ [IHful|(i0 & f0 & Hi0 & Hrej0)]].
  - left. intros i f st0 Hi. by rewrite lookup_nil in Hi.
  - left. intros [|i] g st0 Hi; cbn in Hi.
    + injection Hi as <-. apply Hful.
    + by eapply IHful.
  - right. exists (S i0), f0. by split.
  - right. exists 0%nat, f. by split.
  - right. exists 0%nat, f. by split.
Qed.

Lemma permutation_of_indices (sched : list nat) (n : nat) :
  sched ≡ₚ seq 0 n ->
  NoDup sched /\ (forall i, i ∈ sched <-> (i < n)%nat).
Proof.
  intros Hperm. split.
  - rewrite Hperm. apply NoDup_seq.
  - intros i. rewrite Hperm, elem_of_seq. lia.
Qed.

Lemma decided_batch_settles (k : nat) (sched : list nat) (w : World) (b : Batch) :
  inflight w !! k = Some b ->
  sched ≡ₚ seq 0 (length (batchFiles b)) ->
  Forall (decided compressFile (batchValue b)) (batchFiles b) ->
  let w' := handleCompress_resume compressFile k sched w in
  isCompressing w' = false
  /\ ((alignedWith compressFile (batchFiles b) (batchValue b) (compressedUrls w')
       /\ console w' = console w)
      \/ (compressedUrls w' = compressedUrls w
          /\ exists e, console w' = console w ++ [(errorMessage, e)])).
Proof.
  intros Hb Hperm Hdecided w'. subst w'.
  destruct (decided_batch _ _ Hdecided) as [Hful|(i0 & f0 & Hi0 & Hrej)].
  - pose proof (resume_publishes compressFile k sched w b Hb Hperm Hful) as Hpub.
    cbv zeta in Hpub. destruct Hpub as (Hal & Hflag & Hcons).
    split; [done|]. by left.
  - destruct (permutation_of_indices _ _ Hperm) as [Hnd Hin].
    pose proof (resume_fails compressFile k sched w b i0 f0 Hb Hnd
                  (fun i Hi => proj1 (Hin i) Hi)) as Hfail.
    cbv zeta in Hfail.
    destruct Hfail as (Hres & Herr & Hflag & _); [|done|done|].
    { apply Hin. by apply lookup_lt_Some in Hi0. }
    split; [done|]. by right.
Qed.
End Settling.

Lemma AppJs_decided (imageCompression : File -> Options -> Error + File)
      (v : Z) (f : File) :
  decided (AppJs.compressFile imageCompression) v f.
Proof.
  unfold decided, AppJs.compressFile.
  destruct (imageCompression f (AppJs.options f v)) as [e|c].
  - right. intros st0. by exists e, st0.
  - left. intros st0. unfold bind, createObjectURL, ret. cbn [fst snd]. eauto.
Qed.

Lemma Part000_decided (loadImage : File -> option (Z * Z))
      (imageCompression : File -> Options -> Error + File) (v : Z) (f : File) :
  is_Some (loadImage f) ->
  decided (Part000.compressFile loadImage imageCompression) v f.
Proof.
  intros [img Himg]. unfold decided.
  destruct (imageCompression f (Part000.options f v img)) as [e|c] eqn:Henc.
  - right. intros st0.
    rewrite (compressFile_rejected _ _ f e v img st0 Himg Henc). eauto.
  - left. intros st0.
    rewrite (compressFile_fulfilled _ _ f c v img st0 Himg Henc). eauto.
Qed.

(** X8. In [src/App.js] a batch always ends, whatever the encoder does and
    in whatever order the callbacks end: the running flag is cleared, and
    either the results are published, one per file of the batch and in its
    order, and no error is logged, or the results on display stay as they
    were and one error is logged. *)
Theorem appjs_batch_always_settles
        (imageCompression : File -> Options -> Error + File)
        (k : nat) (sched : list nat) (w : World) (b : Batch) :
  inflight w !! k = Some b ->
  sched ≡ₚ seq 0 (length (batchFiles b)) ->
  let w' := handleCompress_resume (AppJs.compressFile imageCompression) k sched w in
  isCompressing w' = false
  /\ ((alignedWith (AppJs.compressFile imageCompression)
         (batchFiles b) (batchValue b) (compressedUrls w')
       /\ console w' = console w)
      \/ (compressedUrls w' = compressedUrls w
          /\ exists e, console w' = console w ++ [(errorMessage, e)])).
Proof.
  intros Hb Hperm. apply decided_batch_settles; [done|done|].
  apply Forall_forall. intros f _. apply AppJs_decided.
Qed.

Lemma appjs_batch_always_settles_witness :
  isCompressing
    (handleCompress_resume (AppJs.compressFile strictEncoder) 0 [1; 0]%nat
       (run (AppJs.compressFile strictEncoder) (initialWorld 50)
          [EvFileSelect [pngA; textD]; EvCompressClick])) = false.
Proof.
  pose proof (appjs_batch_always_settles strictEncoder 0 [1; 0]%nat
                (run (AppJs.compressFile strictEncoder) (initialWorld 50)
                   [EvFileSelect [pngA; textD]; EvCompressClick])
                (mkBatch [pngA; textD] 50) eq_refl (perm_swap _ _ _)) as H.
  cbv zeta in H. exact (proj1 H).
Defined.

(** X9. In the variant with tiers a batch whose images all load always
    ends, whatever the encoder does and in whatever order the callbacks
    end: the running flag is cleared, and either the results are published,
    one per file of the batch and in its order, and no error is logged, or
    the results on display stay as they were and one error is logged. *)
Theorem loaded_batch_always_settles
        (loadImage : File -> option (Z * Z))
        (imageCompression : File -> Options -> Error + File)
        (k : nat) (sched : list nat) (w : World) (b : Batch) :
  inflight w !! k = Some b ->
  sched ≡ₚ seq 0 (length (batchFiles b)) ->
  Forall (fun f => is_Some (loadImage f)) (batchFiles b) ->
  let w' := handleCompress_resume
              (Part000.compressFile loadImage imageCompression) k sched w in
  isCompressing w' = false
  /\ ((alignedWith (Part000.compressFile loadImage imageCompression)
         (batchFiles b) (batchValue b) (compressedUrls w')
       /\ console w' = console w)
      \/ (compressedUrls w' = compressedUrls w
          /\ exists e, console w' = console w ++ [(errorMessage, e)])).
Proof.
  intros Hb Hperm Hload. apply decided_batch_settles; [done|done|].
  eapply Forall_impl; [exact Hload|]. intros f Hf. by apply Part000_decided.
Qed.

Lemma loaded_batch_always_settles_witness :
  isCompressing
    (handleCompress_resume (Part000.compressFile decodesByMagic strictEncoder)
       0 [1; 0]%nat
       (run (Part000.compressFile decodesByMagic strictEncoder) (initialWorld 30)
          [EvFileSelect [pngA; jpgC]; EvCompressClick])) = false.
Proof.
  pose proof (loaded_batch_always_settles decodesByMagic strictEncoder
                0 [1; 0]%nat
                (run (Part000.compressFile decodesByMagic strictEncoder)
                   (initialWorld 30)
                   [EvFileSelect [pngA; jpgC]; EvCompressClick])
                (mkBatch [pngA; jpgC] 30) eq_refl (perm_swap _ _ _)) as H.
  cbv zeta in H. apply H.
  repeat constructor; vm_compute; eauto.
Defined.

(** * Which error is logged *)

Section FirstRejection.
Variable compressFile : File -> Z -> M Outcome.
Variable b : Batch.

Lemma settleAll_app (s1 s2 : list nat) :
  forall (pa : PromiseAll) (st : UrlStore),
    settleAll compressFile b (s1 ++ s2) pa st
    = settleAll compressFile b s2
        (settleAll compressFile b s1 pa st).1
        (settleAll compressFile b s1 pa st).2.
Proof.
  induction s1 as [|i rest IH]; intros pa st; [done|].
  rewrite <- app_comm_cons, !settleAll_cons.
  destruct (batchFiles b !! i); apply IH.
Qed.

Lemma settleAll_prefix_fulfils (pre : list nat) :
  forall (done : list nat) (pa : PromiseAll) (st : UrlStore),
    NoDup (done ++ pre) ->
    (forall i, i ∈ done ++ pre -> (i < length (batchFiles b))%nat) ->
    (forall i f st0, i ∈ pre -> batchFiles b !! i = Some f ->
       exists r st1, compressFile f (batchValue b) st0 = (Fulfilled r, st1)) ->
    fulfilledSoFar b done pa ->
    fulfilledSoFar b (done ++ pre) (settleAll compressFile b pre pa st).1.
Proof.
  induction pre as [|i rest IH]; intros done pa st Hnd Hlt Hall Hinv.
  - by rewrite app_nil_r.
  - rewrite settleAll_cons.
    assert (Hi : (i < length (batchFiles b))%nat) by apply Hlt, elem_of_middle.
    destruct (lookup_lt_is_Some_2 (batchFiles b) i Hi) as [f Hf]. rewrite Hf.
    destruct (Hall i f st (list_elem_of_here _ _) Hf) as (r & st1 & Hrun).
    rewrite Hrun. cbn.
    rewrite cons_middle, app_assoc in Hnd, Hlt |- *.
    apply IH; [exact Hnd | exact Hlt | |].
    + intros j g st0 Hj. apply Hall. by apply list_elem_of_further.
    + apply resolveElement_progress; [| |exact Hinv].
      * by apply NoDup_app in Hnd as (? & _ & _).
      * intros j Hj. apply Hlt, elem_of_app. by left.
Qed.

Lemma first_rejection_settles (pre post : list nat) (i0 : nat) (f0 : File)
      (e0 : Error) (st : UrlStore) :
  NoDup (pre ++ i0 :: post) ->
  (forall i, i ∈ pre ++ i0 :: post -> (i < length (batchFiles b))%nat) ->
  (forall i f st0, i ∈ pre -> batchFiles b !! i = Some f ->
     exists r st1, compressFile f (batchValue b) st0 = (Fulfilled r, st1)) ->
  batchFiles b !! i0 = Some f0 ->
  (forall st0, exists st1, compressFile f0 (batchValue b) st0 = (Rejected e0, st1)) ->
  promiseState (settleAll compressFile b (pre ++ i0 :: post)
                  (newPromiseAll (length (batchFiles b))) st).1
  = RejectedWith e0.
Proof.
  intros Hnd Hlt Hful Hf0 Hrej.
  rewrite settleAll_app, settleAll_cons, Hf0.
  set (pa1 := (settleAll compressFile b pre _ st).1).
  set (st1 := (settleAll compressFile b pre _ st).2).
  destruct (Hrej st1) as (st2 & Hrun). rewrite Hrun. cbn [fst snd].
  apply settleAll_rejected. cbn.
  assert (Hpre : fulfilledSoFar b ([] ++ pre) pa1).
  { apply settleAll_prefix_fulfils; [| |exact Hful|apply newPromiseAll_fulfilledSoFar].
    - cbn. by apply NoDup_app in Hnd as (? & _ & _).
    - intros i Hi. apply Hlt, elem_of_app. by left. }
  cbn in Hpre. destruct Hpre as (_ & _ & _ & Hpending & _).
  rewrite Hpending; [done|].
  assert (Hnd' : NoDup (pre ++ [i0])).
  { rewrite cons_middle, app_assoc in Hnd. by apply NoDup_app in Hnd as (? & _ & _). }
  pose proof (distinct_indices_bounded (pre ++ [i0]) (length (batchFiles b)) Hnd') as Hb.
  rewrite length_app in Hb. cbn in Hb.
  assert ((length pre + 1 <= length (batchFiles b))%nat); [|lia].
  apply Hb. intros i Hi. apply Hlt.
  rewrite cons_middle, app_assoc. apply elem_of_app. by left.
Qed.
End FirstRejection.

(** X10. The error that is logged is the one of the callback that rejects
    first: when the callbacks that end before it all fulfil, the batch logs
    that one error, whatever the callbacks that end after it do; the
    results on display stay as they were and the running flag is
    cleared. *)
Theorem first_rejection_is_the_one_logged
        (compressFile : File -> Z -> M Outcome)
        (k : nat) (pre post : list nat) (i0 : nat) (f0 : File) (e0 : Error)
        (w : World) (b : Batch) :
  inflight w !! k = Some b ->
  NoDup (pre ++ i0 :: post) ->
  (forall i, i ∈ pre ++ i0 :: post -> (i < length (batchFiles b))%nat) ->
  (forall i f st0, i ∈ pre -> batchFiles b !! i = Some f ->
     exists r st1, compressFile f (batchValue b) st0 = (Fulfilled r, st1)) ->
  batchFiles b !! i0 = Some f0 ->
  (forall st0, exists st1, compressFile f0 (batchValue b) st0 = (Rejected e0, st1)) ->
  let w' := handleCompress_resume compressFile k (pre ++ i0 :: post) w in
  console w' = console w ++ [(errorMessage, e0)]
  /\ compressedUrls w' = compressedUrls w
  /\ isCompressing w' = false.
Proof.
  intros Hb Hnd Hlt Hful Hf0 Hrej w'. subst w'.
  pose proof (first_rejection_settles compressFile b pre post i0 f0 e0
                (objectUrls w) Hnd Hlt Hful Hf0 Hrej) as Hst.
  unfold handleCompress_resume. rewrite Hb.
  destruct (settleAll compressFile b (pre ++ i0 :: post) _ (objectUrls w))
    as [pa st]. cbn [fst] in Hst. rewrite Hst. done.
Qed.

Lemma first_rejection_is_the_one_logged_witness :
  console
    (handleCompress_resume (AppJs.compressFile strictEncoder) 0
       ([0%nat] ++ 1%nat :: [2%nat])
       (run (AppJs.compressFile strictEncoder) (initialWorld 50)
          [EvFileSelect [pngA; textD; textD]; EvCompressClick]))
  = [(errorMessage, "not an image")].
Proof.
  pose proof (first_rejection_is_the_one_logged
                (AppJs.compressFile strictEncoder) 0 [0%nat] [2%nat] 1%nat
                textD "not an image"
                (run (AppJs.compressFile strictEncoder) (initialWorld 50)
                   [EvFileSelect [pngA; textD; textD]; EvCompressClick])
                (mkBatch [pngA; textD; textD] 50) eq_refl) as H.
  cbv zeta in H. apply H.
  - apply NoDup_ListNoDup. repeat constructor; cbn; lia.
  - intros i Hi. cbn. apply list_elem_of_In in Hi. cbn in Hi. lia.
  - intros i f st0 Hi Hf. apply list_elem_of_singleton in Hi. subst i.
    cbn in Hf. injection Hf as <-. vm_compute. eauto.
  - reflexivity.
  - intros st0. vm_compute. eauto.
Defined.

(** * The card and its result *)

Lemma Part000_produced (loadImage : File -> option (Z * Z))
      (imageCompression : File -> Options -> Error + File)
      (f : File) (v : Z) (r : Result) :
  producedBy (Part000.compressFile loadImage imageCompression) f v r ->
  originalName r = file_name f
  /\ file_size (file r) <= file_size f
  /\ stats r = Some (Part000.statsOf (file_size f) (file_size (file r))).
Proof.
  intros (st & st' & Hrun).
  destruct (loadImage f) as [img|] eqn:Himg.
  - destruct (imageCompression f (Part000.options f v img)) as [e|c] eqn:Henc.
    + by rewrite (compressFile_rejected _ _ f e v img st Himg Henc) in Hrun.
    + rewrite (compressFile_fulfilled _ _ f c v img st Himg Henc) in Hrun.
      injection Hrun as <- _. cbn [originalName file stats].
      split; [done|]. split; [apply keepSmaller_size|done].
  - by rewrite (compressFile_pending _ imageCompression f v st Himg) in Hrun.
Qed.

Lemma AppJs_produced (imageCompression : File -> Options -> Error + File)
      (f : File) (v : Z) (r : Result) :
  producedBy (AppJs.compressFile imageCompression) f v r ->
  originalName r = file_name f /\ stats r = None.
Proof.
  intros (st & st' & Hrun). unfold AppJs.compressFile in Hrun.
  destruct (imageCompression f (AppJs.options f v)) as [e|c]; [done|].
  unfold bind, createObjectURL, ret in Hrun. cbn [fst snd] in Hrun.
  by injection Hrun as <- _.
Qed.

Lemma displayAligned_initial (compressFile : File -> Z -> M Outcome) (v0 : Z) :
  displayAligned compressFile (initialWorld v0)
  /\ batchesOfSelection (initialWorld v0).
Proof.
  split; [split|].
  - by left.
  - intros i r Hi. unfold shownResult in Hi. cbn in Hi.
    by rewrite lookup_nil in Hi.
  - constructor.
Qed.

Lemma card_of_result (compressFile : File -> Z -> M Outcome) (w : World)
      (i : nat) (card : Card) (r : Result) :
  displayAligned compressFile w ->
  renderCards w !! i = Some card -> cardResult card = Some r ->
  exists f v, selectedFiles w !! i = Some f
              /\ producedBy compressFile f v r
              /\ cardName card = file_name f
              /\ cardDownload card = downloadName (file_name f).
Proof.
  intros [_ Hal] Hcard Hr. unfold renderCards in Hcard.
  destruct (isNil (previewUrls w)); [by rewrite lookup_nil in Hcard|].
  rewrite list_lookup_imap in Hcard.
  destruct (selectedFiles w !! i) as [f|] eqn:Hf; [|discriminate].
  cbn in Hcard. injection Hcard as <-. cbn in Hr |- *.
  destruct (Hal i r Hr) as (f' & v & Hf' & Hprod).
  rewrite Hf in Hf'. injection Hf' as <-. by exists f, v.
Qed.

(** X11. As long as the selection is not replaced while a batch runs, in
    the variant with tiers every result on the page belongs to the card it
    is shown under: it carries the name of the card's file, the name
    offered for download is made from that name, its file is no larger than
    the card's file, and its statistics are those of the card's file and
    of the result's file. *)
Theorem result_belongs_to_its_card (loadImage : File -> option (Z * Z))
        (imageCompression : File -> Options -> Error + File)
        (v0 : Z) (evs : list Event) (i : nat) (card : Card) (r : Result) :
  quiet (Part000.compressFile loadImage imageCompression) (initialWorld v0) evs
  = true ->
  renderCards (run (Part000.compressFile loadImage imageCompression)
                 (initialWorld v0) evs) !! i = Some card ->
  cardResult card = Some r ->
  exists f,
    selectedFiles (run (Part000.compressFile loadImage imageCompression)
                     (initialWorld v0) evs) !! i = Some f
    /\ originalName r = cardName card
    /\ cardDownload card = downloadName (originalName r)
    /\ file_size (file r) <= file_size f
    /\ stats r = Some (Part000.statsOf (file_size f) (file_size (file r))).
Proof.
  intros Hquiet Hcard Hr.
  destruct (run_keeps_display _ evs (initialWorld v0) Hquiet
              (displayAligned_initial _ v0)) as [Hdisp _].
  destruct (card_of_result _ _ i card r Hdisp Hcard Hr)
    as (f & v & Hf & Hprod & Hname & Hdown).
  destruct (Part000_produced _ _ f v r Hprod) as (Horig & Hsize & Hstats).
  exists f. rewrite Horig, Hname, Hdown. done.
Qed.

Lemma result_belongs_to_its_card_witness :
  exists f,
    selectedFiles (run (Part000.compressFile decodesByMagic (recode (take 1)))
                     (initialWorld 30)
                     [EvFileSelect [pngA; jpgC]; EvCompressClick;
                      EvSettle 0 [1; 0]%nat]) !! 1%nat = Some f
    /\ file_size jpgC <= file_size f.
Proof.
  destruct (result_belongs_to_its_card decodesByMagic (recode (take 1)) 30
              [EvFileSelect [pngA; jpgC]; EvCompressClick; EvSettle 0 [1; 0]%nat]
              1%nat
              (mkCard "c.jpg" (Some 1%N)
                 (Some (mkResult 3%N jpgC "c.jpg"
                          (Some (Part000.statsOf 3 3))))
                 "c_jelly_image_compress.jpg")
              (mkResult 3%N jpgC "c.jpg" (Some (Part000.statsOf 3 3))))
    as (f & Hf & _ & _ & Hsize & _).
  - vm_compute. reflexivity.
  - vm_compute. reflexivity.
  - reflexivity.
  - exists f. split; [exact Hf|exact Hsize].
Defined.

(** * What the encoder is asked and what is reported *)

Lemma file_size_nonneg (f : File) : 0 <= file_size f.
Proof. unfold file_size. lia. Qed.


Lemma Qmax_floor (floor t : Q) : (t <= floor)%Q -> Qmax floor t = floor.
Proof.
  intros Ht. unfold Qmax, GenericMinMax.gmax.
  destruct (floor ?= t)%Q eqn:Hcmp; [done| |done].
  apply Qlt_alt in Hcmp. lra.
Qed.

Lemma small_file_scaled (f : File) (v : Z) (bound : Z) (floor : Q) :
  file_size f <= bound -> (megabytes bound <= floor)%Q -> 0 <= v ->
  (originalSizeMB f * (1 - inject_Z v / 100) <= floor)%Q.
Proof.
  intros Hsize Hbound Hv.
  pose proof (megabytes_nonneg (file_size f) (file_size_nonneg f)) as Hnn.
  pose proof (megabytes_mono _ _ Hsize) as Hle.
  fold (originalSizeMB f) in Hnn, Hle.
  assert (Hq : (0 <= inject_Z v)%Q) by (by rewrite <- (Zle_Qle 0)).
  assert (H1 : (inject_Z v / 100 == inject_Z v * (1 # 100))%Q) by field.
  rewrite H1.
  set (s := originalSizeMB f) in *. set (a := inject_Z v) in *.
  set (m := megabytes bound) in *. nra.
Qed.

(** X12. In the variant with tiers the strength has no effect on a file of
    at most 314572 bytes (0.3 MB): the size limit handed to the encoder is
    the floor of 0.3 MB, and the options, and with them all the callback
    does, are the same for every strength from zero on. *)
Theorem strength_is_inert_below_the_floor
        (loadImage : File -> option (Z * Z))
        (imageCompression : File -> Options -> Error + File)
        (f : File) (v1 v2 : Z) (st : UrlStore) :
  file_size f <= 314572 -> 0 <= v1 -> 0 <= v2 ->
  (forall img, Part000.options f v1 img = Part000.options f v2 img
               /\ maxSizeMB (Part000.options f v1 img) = Part000.floor_size)
  /\ Part000.compressFile loadImage imageCompression f v1 st
     = Part000.compressFile loadImage imageCompression f v2 st.
Proof.
  intros Hsize Hv1 Hv2.
  assert (Hbound : (megabytes 314572 <= Part000.floor_size)%Q).
  { unfold megabytes, Part000.floor_size, Qle. cbn. lia. }
  assert (Htarget : forall v, 0 <= v ->
            Part000.targetSizeMB f v = Part000.floor_size).
  { intros v Hv. unfold Part000.targetSizeMB. apply Qmax_floor.
    by apply small_file_scaled with 314572. }
  assert (Hopts : forall img, Part000.options f v1 img = Part000.options f v2 img).
  { intros img. unfold Part000.options. by rewrite !Htarget. }
  split.
  - intros img. split; [apply Hopts|].
    unfold Part000.options. cbn [maxSizeMB]. by apply Htarget.
  - unfold Part000.compressFile. unfold bind.
    destruct (createObjectURL f st) as [u st1].
    destruct (loadImage f) as [img|]; [|done].
    by rewrite Hopts.
Qed.

Lemma strength_is_inert_below_the_floor_witness :
  Part000.compressFile decodesByMagic strictEncoder pngA 10 emptyStore
  = Part000.compressFile decodesByMagic strictEncoder pngA 40 emptyStore.
Proof.
  apply (strength_is_inert_below_the_floor decodesByMagic strictEncoder
           pngA 10 40 emptyStore); vm_compute; discriminate.
Defined.



(** X14. In [src/App.js], for every strength the slider and the chips can
    give (1 to 99), the quality handed to the encoder lies between 0.01
    and 0.99, the size limit is at least 1 MB and at most the larger of
    1 MB and the size of the file, and the largest side is 1920. *)
Theorem appjs_options_in_range (f : File) (v : Z) :
  1 <= v <= 99 ->
  (exists q, quality (AppJs.options f v) = Some q
             /\ (1 # 100 <= q)%Q /\ (q <= 99 # 100)%Q)
  /\ (1 <= maxSizeMB (AppJs.options f v))%Q
  /\ (maxSizeMB (AppJs.options f v) <= Qmax 1 (originalSizeMB f))%Q
  /\ maxWidthOrHeight (AppJs.options f v) = 1920.
Proof.
  intros Hv. split; [|split; [|split]].
  - eexists. split; [reflexivity|].
    assert (H1 : (inject_Z (100 - v) / 100 == inject_Z (100 - v) * (1 # 100))%Q)
      by field.
    assert (Hlo : (inject_Z 1 <= inject_Z (100 - v))%Q) by (rewrite <- Zle_Qle; lia).
    assert (Hhi : (inject_Z (100 - v) <= inject_Z 99)%Q) by (rewrite <- Zle_Qle; lia).
    rewrite H1. set (a := inject_Z (100 - v)) in *.
    change (inject_Z 1) with 1%Q in Hlo. change (inject_Z 99) with 99%Q in Hhi.
    split; lra.
  - cbn [AppJs.options maxSizeMB]. apply Q.le_max_l.
  - cbn [AppJs.options maxSizeMB]. apply Q.max_le_compat_l.
    pose proof (megabytes_nonneg (file_size f) (file_size_nonneg f)) as Hnn.
    fold (originalSizeMB f) in Hnn.
    assert (Hq : (0 <= inject_Z v)%Q) by (rewrite <- (Zle_Qle 0); lia).
    assert (H1 : (inject_Z v / 100 == inject_Z v * (1 # 100))%Q) by field.
    rewrite H1. set (s := originalSizeMB f) in *. set (a := inject_Z v) in *. nra.
  - reflexivity.
Qed.

Lemma appjs_options_in_range_witness :
  maxWidthOrHeight (AppJs.options pngA 50) = 1920
  /\ (1 <= maxSizeMB (AppJs.options pngA 50))%Q.
Proof.
  destruct (appjs_options_in_range pngA 50) as (_ & Hsize & _ & Hside); [lia|].
  split; [exact Hside|exact Hsize].
Defined.

(** * The reported ratio *)

Lemma ratio_in_range (size csize : Z) :
  0 < size -> 0 <= csize <= size ->
  (0 <= inject_Z (size - csize) / inject_Z size * 100)%Q
  /\ (inject_Z (size - csize) / inject_Z size * 100 <= 100)%Q.
Proof.
  intros Hsize Hc.
  assert (Hs : (0 < inject_Z size)%Q) by (by rewrite <- (Zlt_Qlt 0)).
  assert (Hd0 : (0 <= inject_Z (size - csize))%Q) by (rewrite <- (Zle_Qle 0); lia).
  assert (Hd1 : (inject_Z (size - csize) <= inject_Z size)%Q)
    by (rewrite <- Zle_Qle; lia).
  assert (Hlo : (0 <= inject_Z (size - csize) / inject_Z size)%Q).
  { apply Qle_shift_div_l; [done|]. lra. }
  assert (Hhi : (inject_Z (size - csize) / inject_Z size <= 1)%Q).
  { apply Qle_shift_div_r; [done|]. lra. }
  set (t := (inject_Z (size - csize) / inject_Z size)%Q) in *. split; lra.
Qed.

Lemma roundHalfUp_zero (x : Q) (d : nat) : (x == 0)%Q -> roundHalfUp x d = 0.
Proof.
  intros Hx.
  assert (H0 : roundHalfUp 0 d = 0).
  { unfold roundHalfUp. rewrite Qmult_0_l, Qplus_0_l. reflexivity. }
  pose proof (roundHalfUp_mono x 0 d) as Hle.
  pose proof (roundHalfUp_mono 0 x d) as Hge.
  rewrite H0 in Hle, Hge.
  assert (roundHalfUp x d <= 0) by (apply Hle; lra).
  assert (0 <= roundHalfUp x d) by (apply Hge; lra). lia.
Qed.

(** X15. For a file that is not empty the ratio reported in the variant
    with tiers is a percentage: it lies between 0 and 100, and so does the
    figure on the page (0.0 to 100.0).  When the encoder's output is larger
    than the file, so that the file itself is kept, the page reports a
    ratio of 0.0% and the same size twice. *)
Theorem reported_ratio_is_a_percentage (f compressed : File) :
  0 < file_size f ->
  let kept := Part000.keepSmaller f compressed in
  (exists q, Part000.ratioPercent (file_size f) (file_size kept) = Some q
             /\ (0 <= q)%Q /\ (q <= 100)%Q)
  /\ 0 <= ratioTenths (file_size f) (file_size kept) <= 1000
  /\ (file_size compressed > file_size f ->
      compressionRatio (Part000.statsOf (file_size f) (file_size kept)) = "0.0%"
      /\ compressedSize (Part000.statsOf (file_size f) (file_size kept))
         = originalSize (Part000.statsOf (file_size f) (file_size kept))).
Proof.
  intros Hsize kept.
  assert (Hkept : 0 <= file_size kept <= file_size f).
  { split; [apply file_size_nonneg|apply keepSmaller_size]. }
  destruct (ratio_in_range _ _ Hsize Hkept) as [Hlo Hhi].
  assert (Hnz : (file_size f =? 0) = false) by (apply Z.eqb_neq; lia).
  split; [|split].
  - unfold Part000.ratioPercent. rewrite Hnz. eexists. split; [reflexivity|].
    by split.
  - unfold ratioTenths.
    assert (H0 : roundHalfUp 0 1 = 0) by reflexivity.
    assert (H100 : roundHalfUp 100 1 = 1000) by reflexivity.
    rewrite <- H0 at 1. rewrite <- H100.
    split; by apply roundHalfUp_mono.
  - intros Hlarger.
    assert (Hf : kept = f).
    { subst kept. unfold Part000.keepSmaller.
      destruct (file_size compressed >? file_size f) eqn:Hgt; [done|].
      rewrite Z.gtb_ltb in Hgt. apply Z.ltb_ge in Hgt. lia. }
    rewrite Hf. split; [|done].
    unfold Part000.statsOf, Part000.ratioText, Part000.ratioPercent.
    cbn [compressionRatio]. rewrite Hnz.
    rewrite Hf in Hlo. rewrite (toFixed_nonneg _ 1 Hlo).
    rewrite roundHalfUp_zero; [reflexivity|].
    rewrite Z.sub_diag. unfold Qdiv. by rewrite !Qmult_0_l.
Qed.

Lemma reported_ratio_is_a_percentage_witness :
  0 <= ratioTenths (file_size pngA)
         (file_size (Part000.keepSmaller pngA jpgC)) <= 1000.
Proof.
  pose proof (reported_ratio_is_a_percentage pngA jpgC) as H.
  cbv zeta in H. apply H. vm_compute. reflexivity.
Defined.

(** * The download name in general *)

Lemma stripExtension_cases (s : string) :
  stripExtension s = s
  \/ exists base ext,
       s = base +:+ "." +:+ ext
       /\ nonEmpty ext = true /\ allChars notSlashDot ext = true.
Proof.
  induction s as [|c rest IH]; [by left|]. simpl.
  destruct (Ascii.eqb c "." && nonEmpty rest && allChars notSlashDot rest)
    eqn:Htest.
  - right. apply andb_prop in Htest as [Htest Hall].
    apply andb_prop in Htest as [Hc Hne]. apply Ascii.eqb_eq in Hc. subst c.
    by exists "", rest.
  - destruct IH as [->|(base & ext & -> & Hne & Hall)]; [by left|].
    right. by exists (String c base), ext.
Qed.

Lemma string_length_app (a b : string) :
  String.length (a +:+ b) = (String.length a + String.length b)%nat.
Proof. induction a as [|c a IH]; simpl; [done|]. by rewrite IH. Qed.

Lemma string_app_assoc (a b c : string) : (a +:+ b) +:+ c = a +:+ (b +:+ c).
Proof.
  induction a as [|x a IH]; [done|].
  change (String x ((a +:+ b) +:+ c) = String x (a +:+ (b +:+ c))).
  by rewrite IH.
Qed.

Lemma stripExtension_trailing_dot (base : string) :
  stripExtension (base +:+ ".") = base +:+ ".".
Proof.
  induction base as [|c base IH]; [done|]. simpl.
  rewrite allChars_app. simpl. rewrite !andb_false_r. by rewrite IH.
Qed.

Lemma pop_splitDot_trailing_dot (base : string) :
  pop (splitDot (base +:+ ".")) = "".
Proof.
  destruct (splitDot_app base "" eq_refl) as (seg & segs & Heq & Hne & Hpop).
  rewrite Heq, pop_cons; done.
Qed.

(** X16. The name offered for download, for every file name.  Either the
    name ends in a dot and a non-empty extension without [/] and [.], and
    the suffix is put between the base and the extension; or nothing is
    removed from the name and the suffix, a dot and the part after the last
    dot are appended to the whole name.  So the offered name is always at
    least 21 characters longer than the file's and never equal to it; for a
    name that ends in a dot it ends in a dot too. *)
Theorem download_name_shape (name : string) :
  ((exists base ext,
      name = base +:+ "." +:+ ext
      /\ nonEmpty ext = true /\ allChars notSlashDot ext = true
      /\ downloadName name = base +:+ suffix_jelly +:+ "." +:+ ext)
   \/ downloadName name = name +:+ suffix_jelly +:+ "." +:+ pop (splitDot name))
  /\ (String.length name + 21 <= String.length (downloadName name))%nat
  /\ downloadName name <> name
  /\ downloadName (name +:+ ".") = name +:+ "." +:+ suffix_jelly +:+ ".".
Proof.
  assert (Hshape :
    (exists base ext,
        name = base +:+ "." +:+ ext
        /\ nonEmpty ext = true /\ allChars notSlashDot ext = true
        /\ downloadName name = base +:+ suffix_jelly +:+ "." +:+ ext)
    \/ downloadName name = name +:+ suffix_jelly +:+ "." +:+ pop (splitDot name)).
  { destruct (stripExtension_cases name) as [Hsame|(base & ext & -> & Hne & Hall)].
    - right. unfold downloadName. by rewrite Hsame.
    - left. exists base, ext. split; [done|]. split; [done|]. split; [done|].
      by apply downloadName_with_extension. }
  assert (Hlen : (String.length name + 21 <= String.length (downloadName name))%nat).
  { assert (Hsuffix : String.length suffix_jelly = 21%nat) by reflexivity.
    destruct Hshape as [(base & ext & Hname & _ & _ & Hdown)|Hdown];
      rewrite Hdown, ?Hname, !string_length_app, Hsuffix;
      cbn [String.length]; lia. }
  split; [exact Hshape|]. split; [exact Hlen|]. split.
  - intros Heq. rewrite Heq in Hlen. lia.
  - unfold downloadName.
    rewrite stripExtension_trailing_dot, pop_splitDot_trailing_dot.
    by rewrite string_app_assoc.
Qed.

(** * A batch that never ends *)

Lemma total_encoder_never_rejects (loadImage : File -> option (Z * Z))
      (imageCompression : File -> Options -> Error + File) :
  (forall f o, exists c, imageCompression f o = inr c) ->
  forall f v st0 e st1,
    Part000.compressFile loadImage imageCompression f v st0 <> (Rejected e, st1).
Proof.
  intros Htotal f v st0 e st1.
  destruct (loadImage f) as [img|] eqn:Himg.
  - destruct (Htotal f (Part000.options f v img)) as [c Henc].
    by rewrite (compressFile_fulfilled _ _ f c v img st0 Himg Henc).
  - by rewrite (compressFile_pending _ imageCompression f v st0 Himg).
Qed.

Lemma unloadable_stays_pending (loadImage : File -> option (Z * Z))
      (imageCompression : File -> Options -> Error + File) (f : File) (v : Z) :
  loadImage f = None ->
  forall st0, exists st1,
    Part000.compressFile loadImage imageCompression f v st0 = (Pending, st1).
Proof.
  intros Himg st0.
  rewrite (compressFile_pending _ imageCompression f v st0 Himg). eauto.
Qed.

(** X17. In the variant with tiers a batch with an image that never loads
    blocks the page for good when the encoder rejects nothing: whatever the
    user does afterwards and however the other callbacks end, the running
    flag stays set, the batch stays in flight, no new batch starts, no
    error is logged and no result is ever published (the result list stays
    as it was or is emptied by a new selection). *)
Theorem blocked_batch_blocks_the_page
        (loadImage : File -> option (Z * Z))
        (imageCompression : File -> Options -> Error + File)
        (b : Batch) (p : nat) (fp : File) (evs : list Event) (w : World) :
  inflight w = [b] ->
  isCompressing w = true ->
  batchFiles b !! p = Some fp ->
  loadImage fp = None ->
  (forall f o, exists c, imageCompression f o = inr c) ->
  let w' := run (Part000.compressFile loadImage imageCompression) w evs in
  isCompressing w' = true
  /\ inflight w' = [b]
  /\ console w' = console w
  /\ (compressedUrls w' = compressedUrls w \/ compressedUrls w' = []).
Proof.
  intros Hinf Hflag Hp Himg Htotal w'. subst w'.
  revert w Hinf Hflag. induction evs as [|ev rest IH]; intros w Hinf Hflag.
  - split; [done|]. split; [done|]. split; [done|by left].
  - change (run (Part000.compressFile loadImage imageCompression) w (ev :: rest))
      with (run (Part000.compressFile loadImage imageCompression)
              (step (Part000.compressFile loadImage imageCompression) w ev) rest).
    set (cF := Part000.compressFile loadImage imageCompression) in *.
    assert (Hselect : forall files,
              isCompressing (handleFileSelect files w) = true
              /\ inflight (handleFileSelect files w) = [b]
              /\ console (handleFileSelect files w) = console w
              /\ (compressedUrls (handleFileSelect files w) = compressedUrls w
                  \/ compressedUrls (handleFileSelect files w) = [])).
    { intros files. unfold handleFileSelect.
      destruct files as [|f0 files0]; [by repeat split; try left|].
      destruct (mapCreateObjectURL (f0 :: files0) (objectUrls w)) as [urls st].
      cbn. split; [done|]. split; [done|]. split; [done|by right]. }
    assert (Hstep : isCompressing (step cF w ev) = true
                    /\ inflight (step cF w ev) = [b]
                    /\ console (step cF w ev) = console w
                    /\ (compressedUrls (step cF w ev) = compressedUrls w
                        \/ compressedUrls (step cF w ev) = [])).
    { destruct ev as [files|dropped|v|v| |k sched]; cbn [step].
      - apply Hselect.
      - rewrite handleDrop_as_select. apply Hselect.
      - cbn. split; [done|]. split; [done|]. split; [done|by left].
      - cbn. split; [done|]. split; [done|]. split; [done|by left].
      - rewrite Hflag. split; [done|]. split; [done|]. split; [done|by left].
      - destruct k as [|k].
        + rewrite (resume_blocked cF b 0 p fp sched w).
          * split; [done|]. split; [done|]. split; [done|by left].
          * by rewrite Hinf.
          * exact Hp.
          * by apply unloadable_stays_pending.
          * intros f. by apply total_encoder_never_rejects.
        + unfold handleCompress_resume. rewrite Hinf. cbn.
          split; [done|]. split; [done|]. split; [done|by left]. }
    destruct Hstep as (Hflag1 & Hinf1 & Hcon1 & Hres1).
    destruct (IH _ Hinf1 Hflag1) as (Hflag2 & Hinf2 & Hcon2 & Hres2).
    split; [done|]. split; [done|]. split; [by rewrite Hcon2|].
    destruct Hres2 as [Hres2|Hres2]; [|by right].
    rewrite Hres2. exact Hres1.
Qed.

Lemma blocked_batch_blocks_the_page_witness :
  isCompressing
    (run (Part000.compressFile decodesByMagic (recode (take 1)))
       (run (Part000.compressFile decodesByMagic (recode (take 1)))
          (initialWorld 10) [EvFileSelect [pngA; brokenJpg]; EvCompressClick])
       [EvSettle 0 [0; 1]%nat; EvFileSelect [pngB]; EvCompressClick;
        EvSettle 0 [0]%nat]) = true.
Proof.
  pose proof (blocked_batch_blocks_the_page decodesByMagic (recode (take 1))
                (mkBatch [pngA; brokenJpg] 10) 1 brokenJpg
                [EvSettle 0 [0; 1]%nat; EvFileSelect [pngB]; EvCompressClick;
                 EvSettle 0 [0]%nat]
                (run (Part000.compressFile decodesByMagic (recode (take 1)))
                   (initialWorld 10)
                   [EvFileSelect [pngA; brokenJpg]; EvCompressClick])
                eq_refl eq_refl eq_refl eq_refl (recode_returns (take 1))) as H.
  cbv zeta in H. exact (proj1 H).
Defined.
